(** * YAMLgam: base-and-overlay generator for YAML documents

    A shallow embedding of [yaml-diff-script.py] and the properties of its
    core functions: [remove_empty_structures], [deep_intersection],
    [parse_path], [set_nested], [get_nested], [create_overlay] and
    [generate_base_and_overlays].

    Modelling choices.
    - Python values are trees: a document has no object that is reachable
      along two paths (no YAML alias), so that mutating a child in place
      is seen at one position only.
    - A [dict] is a finite map ([gmap]): equality of mappings does not
      depend on the order of insertion, as in Python.  Keys are strings
      or non-negative integers, the two kinds of steps that [parse_path]
      produces.
    - Scalars are [None], booleans, integers and strings; floating-point
      numbers are left out.
    - A function that mutates its argument ([set_nested], the loops of
      [create_overlay]) returns the state of that argument after the
      call.  Exceptions are the [Raise] values of [result].
    - [DeepDiff] is a library outside the repository and [read_yaml]
      reads the file system: both are parameters of the functions that
      call them. *)

From Stdlib Require Import Ascii String DecimalString DecimalNat.
From stdpp Require Import gmap strings list fin_maps.

#[local] Set Warnings "-register-all".

(* ================================================================== *)
(** * Data model *)
(* ================================================================== *)

(** A step of a path, which is also what a mapping is keyed by: a string
    or a non-negative integer ([parse_path] produces no other kind). *)
Inductive key :=
| KStr (s : string)
| KInt (n : nat).

#[global] Instance key_eq_dec : EqDecision key.
Proof. solve_decision. Defined.

#[global] Instance key_countable : Countable key.
Proof.
  refine (inj_countable'
            (fun k => match k with KStr s => inl s | KInt n => inr n end)
            (fun x => match x with inl s => KStr s | inr n => KInt n end) _).
  intros []; reflexivity.
Defined.

(** The values [yaml.safe_load] builds, without floating-point numbers. *)
Inductive value :=
| VNone
| VBool (b : bool)
| VInt (z : Z)
| VStr (s : string)
| VList (l : list value)
| VDict (m : gmap key value).

Definition is_dict (v : value) : bool :=
  match v with VDict _ => true | _ => false end.

Definition is_list (v : value) : bool :=
  match v with VList _ => true | _ => false end.

Definition is_scalar (v : value) : bool :=
  match v with VDict _ | VList _ => false | _ => true end.

(** The exceptions the modelled code can raise. *)
Inductive exn := KeyError | IndexError | TypeError | AttributeError.

(** [LookupError] is the base class of [KeyError] and [IndexError]. *)
Definition is_LookupError (e : exn) : bool :=
  match e with KeyError | IndexError => true | _ => false end.

Inductive result (A : Type) :=
| Ok (a : A)
| Raise (e : exn).
Arguments Ok {A} a.
Arguments Raise {A} e.

(** Sequencing: an exception aborts what follows ([x ← r; k]). *)
#[global] Instance result_bind : MBind result := fun A B f r =>
  match r with Ok a => f a | Raise e => Raise e end.

(** [for item in items: body], threading the mutated object. *)
Fixpoint for_each {A S} (body : S -> A -> result S) (items : list A) (s : S)
  : result S :=
  match items with
  | [] => Ok s
  | item :: items' => s' ← body s item; for_each body items' s'
  end.

(** [[f(x) for x in xs]] where [f] may raise. *)
Fixpoint map_result {A B} (f : A -> result B) (xs : list A) : result (list B) :=
  match xs with
  | [] => Ok []
  | x :: xs' => y ← f x; ys ← map_result f xs'; Ok (y :: ys)
  end.

(* ------------------------------------------------------------------ *)
(** ** Python equality *)

Definition Z_of_bool (b : bool) : Z := if b then 1%Z else 0%Z.

(** [a == b].  [True == 1] and [False == 0]; lists compare element by
    element, dicts by keys and values whatever the insertion order. *)
Fixpoint py_eq (a b : value) {struct a} : bool :=
  match a, b with
  | VNone, VNone => true
  | VBool x, VBool y => bool_decide (x = y)
  | VBool x, VInt y => bool_decide (Z_of_bool x = y)
  | VInt x, VBool y => bool_decide (x = Z_of_bool y)
  | VInt x, VInt y => bool_decide (x = y)
  | VStr x, VStr y => bool_decide (x = y)
  | VList l, VList l' =>
      (fix go (l l' : list value) {struct l} : bool :=
         match l, l' with
         | [], [] => true
         | x :: t, y :: t' => py_eq x y && go t t'
         | _, _ => false
         end) l l'
  | VDict m, VDict m' =>
      bool_decide (size m = size m') &&
      map_fold (fun k v acc =>
                  acc && match m' !! k with
                         | Some v' => py_eq v v'
                         | None => false
                         end) true m
  | _, _ => false
  end.

(** [x not in ({}, [], None)] *)
Definition not_in_empties (x : value) : bool :=
  negb (py_eq x (VDict ∅) || py_eq x (VList []) || py_eq x VNone).

(* ================================================================== *)
(** * remove_empty_structures *)
(* ================================================================== *)

(** Both comprehensions evaluate [remove_empty_structures] on the child
    and keep the result when it is none of [{}], [[]], [None]. *)
Fixpoint remove_empty_structures (data : value) : value :=
  match data with
  | VDict m =>
      VDict (omap (fun v => let r := remove_empty_structures v in
                            if not_in_empties r then Some r else None) m)
  | VList l =>
      VList (omap (fun item => let r := remove_empty_structures item in
                               if not_in_empties r then Some r else None) l)
  | _ => data
  end.

(** The child of a comprehension: the pruned child when it is kept. *)
Definition pruned_child (v : value) : option value :=
  let r := remove_empty_structures v in
  if not_in_empties r then Some r else None.

(* ================================================================== *)
(** * deep_intersection *)
(* ================================================================== *)

(** [d[k]] and [k in d] for the dict branch. *)
Definition dict_get (k : key) (d : value) : option value :=
  match d with VDict m => m !! k | _ => None end.

Definition has_key (k : key) (d : value) : bool :=
  match d with VDict m => bool_decide (is_Some (m !! k)) | _ => false end.

Definition list_items (d : value) : option (list value) :=
  match d with VList l => Some l | _ => None end.

(** One step of [zip]: the heads of all the lists and their tails, or
    nothing as soon as one list is exhausted. *)
Fixpoint heads_tails (ls : list (list value))
  : option (list value * list (list value)) :=
  match ls with
  | [] => Some ([], [])
  | l :: ls' =>
      match l, heads_tails ls' with
      | x :: t, Some (items, ts) => Some (x :: items, t :: ts)
      | _, _ => None
      end
  end.

(** [result if result else None] *)
Definition list_or_None (result : list value) : value :=
  match result with [] => VNone | _ => VList result end.

(** [deep_intersection] on a non-empty [data_list = d0 :: rest].  Every
    recursive call of the source is on a list whose first element is a
    child of [d0], which is what the recursion descends on. *)
Fixpoint deep_intersection_ne (d0 : value) (rest : list value) {struct d0}
  : value :=
  let data_list := d0 :: rest in
  if forallb is_dict data_list then
    match d0 with
    | VDict m0 =>
        (* common_keys: the keys of the first dict that all others have *)
        let result :=
          map_imap (fun k v =>
            if forallb (has_key k) rest
            then Some (deep_intersection_ne v (omap (dict_get k) rest))
            else None) m0 in
        remove_empty_structures (VDict result)
    | _ => VNone
    end
  else if forallb is_list data_list then
    match d0 with
    | VList l0 =>
        let result :=
          (fix zip_loop (l0 : list value) (ls : list (list value))
               {struct l0} : list value :=
             match l0 with
             | [] => []
             | x :: t =>
                 match heads_tails ls with
                 | Some (items, ts) =>
                     let intersection := deep_intersection_ne x items in
                     (if not_in_empties intersection
                      then [intersection] else []) ++ zip_loop t ts
                 | None => []
                 end
             end) l0 (omap list_items rest) in
        list_or_None result
    | _ => VNone
    end
  else if forallb (fun d => py_eq d d0) data_list then d0
  else VNone.

Definition deep_intersection (data_list : list value) : value :=
  match data_list with
  | [] => VNone
  | d0 :: rest => deep_intersection_ne d0 rest
  end.

(* ================================================================== *)
(** * parse_path *)
(* ================================================================== *)

(** The regular expression of [parse_path] on a string of one-byte
    characters.  It has two alternatives: a quoted key (an opening
    bracket, a quote, characters other than quotes, an optional quote, a
    closing bracket) and an index (digits between brackets).  The quoted
    key is tried first; its run of characters is greedy and gives
    characters back until a closing bracket follows. *)
Module PathRegex.

Definition quote : ascii := "'"%char.
Definition lbracket : ascii := "["%char.
Definition rbracket : ascii := "]"%char.

Definition is_digit (c : ascii) : bool :=
  Nat.leb 48 (nat_of_ascii c) && Nat.leb (nat_of_ascii c) 57.

Definition is_quote (c : ascii) : bool := bool_decide (c = quote).
Definition is_rbracket (c : ascii) : bool := bool_decide (c = rbracket).

(** The longest prefix whose characters satisfy [p], and what follows. *)
Fixpoint span (p : ascii -> bool) (cs : list ascii)
  : list ascii * list ascii :=
  match cs with
  | c :: cs' =>
      if p c then let '(run, after) := span p cs' in (c :: run, after)
      else ([], cs)
  | [] => ([], [])
  end.

(** What precedes the last [']'] of [run], when there is one. *)
Fixpoint before_last_rbracket (run : list ascii) : option (list ascii) :=
  match run with
  | [] => None
  | c :: t =>
      match before_last_rbracket t with
      | Some b => Some (c :: b)
      | None => if is_rbracket c then Some [] else None
      end
  end.

(** The quoted key at the start of [cs]: the group and the number of
    characters matched. *)
Definition match_key (cs : list ascii) : option (list ascii * nat) :=
  match cs with
  | c1 :: c2 :: rest =>
      if bool_decide (c1 = lbracket) && is_quote c2 then
        let '(run, after) := span (fun c => negb (is_quote c)) rest in
        match after with
        | c3 :: c4 :: _ =>
            if is_quote c3 && is_rbracket c4 then Some (run, length run + 4)
            else b ← before_last_rbracket run; Some (b, length b + 3)
        | _ => b ← before_last_rbracket run; Some (b, length b + 3)
        end
      else None
  | _ => None
  end.

(** The index at the start of [cs]. *)
Definition match_index (cs : list ascii) : option (list ascii * nat) :=
  match cs with
  | c1 :: rest =>
      if bool_decide (c1 = lbracket) then
        let '(digits, after) := span is_digit rest in
        match digits, after with
        | _ :: _, c2 :: _ =>
            if is_rbracket c2 then Some (digits, length digits + 2) else None
        | _, _ => None
        end
      else None
  | [] => None
  end.

(** The scan of [findall]: after a match the search resumes behind it
    ([skip] characters are still to be passed over), otherwise one
    character further. *)
Fixpoint findall (cs : list ascii) (skip : nat)
  : list (list ascii * list ascii) :=
  match cs with
  | [] => []
  | _ :: cs' =>
      match skip with
      | S n => findall cs' n
      | 0 =>
          match match_key cs with
          | Some (s, len) => (s, []) :: findall cs' (len - 1)
          | None =>
              match match_index cs with
              | Some (i, len) => ([], i) :: findall cs' (len - 1)
              | None => findall cs' 0
              end
          end
      end
  end.

(** [int(i)] on a string of decimal digits. *)
Definition int (digits : list ascii) : nat :=
  foldl (fun acc c => 10 * acc + (nat_of_ascii c - 48)) 0 digits.

End PathRegex.

Definition parse_path (path : string) : list key :=
  let components := PathRegex.findall (list_ascii_of_string path) 0 in
  map (fun '(s, i) =>
         match i with
         | [] => KStr (string_of_list_ascii s)
         | _ => KInt (PathRegex.int i)
         end) components.

(* ================================================================== *)
(** * Subscripting and item assignment *)
(* ================================================================== *)

(** [d[key]] *)
Definition getitem (d : value) (k : key) : result value :=
  match d with
  | VDict m =>
      match m !! k with Some v => Ok v | None => Raise KeyError end
  | VList l =>
      match k with
      | KInt n =>
          match l !! n with Some v => Ok v | None => Raise IndexError end
      | KStr _ => Raise TypeError
      end
  | VStr s =>
      match k with
      | KInt n =>
          match String.get n s with
          | Some c => Ok (VStr (String c EmptyString))
          | None => Raise IndexError
          end
      | KStr _ => Raise TypeError
      end
  | _ => Raise TypeError
  end.

(** [d[key] = value] *)
Definition setitem (d : value) (k : key) (v : value) : result value :=
  match d with
  | VDict m => Ok (VDict (<[k := v]> m))
  | VList l =>
      match k with
      | KInt n =>
          if decide (n < length l) then Ok (VList (<[n := v]> l))
          else Raise IndexError
      | KStr _ => Raise TypeError
      end
  | _ => Raise TypeError
  end.

(** [d.setdefault(key, default)]: the dict afterwards and the value
    returned. *)
Definition setdefault (d : value) (k : key) (default : value)
  : result (value * value) :=
  match d with
  | VDict m =>
      match m !! k with
      | Some v => Ok (d, v)
      | None => Ok (VDict (<[k := default]> m), default)
      end
  | _ => Raise AttributeError
  end.

(** [while len(d) <= n: d.append(placeholder)].  [len] raises on [None],
    booleans and integers; [append] exists on lists only. *)
Definition append_until (d : value) (n : nat) (placeholder : value)
  : result value :=
  match d with
  | VList l => Ok (VList (l ++ replicate (S n - length l) placeholder))
  | VDict m => if decide (size m <= n) then Raise AttributeError else Ok d
  | VStr s =>
      if decide (String.length s <= n) then Raise AttributeError else Ok d
  | _ => Raise TypeError
  end.

(** The document [d] once its child at [k], an object that [d] refers to,
    has been mutated into [child]. *)
Definition with_child (d : value) (k : key) (child : value) : value :=
  match d with
  | VDict m => VDict (<[k := child]> m)
  | VList l =>
      match k with KInt n => VList (<[n := child]> l) | KStr _ => d end
  | _ => d
  end.

(** [{} if isinstance(path[i+1], str) else []] *)
Definition new_container (next : key) : value :=
  match next with KStr _ => VDict ∅ | KInt _ => VList [] end.

(* ================================================================== *)
(** * set_nested and get_nested *)
(* ================================================================== *)

(** [set_nested(d, path, value)] mutates [d]; the result is [d] after the
    call.  The loop over [path[:-1]] looks one step ahead, the last step
    assigns. *)
Fixpoint set_nested (d : value) (path : list key) (v : value)
  : result value :=
  match path with
  | [] => Raise IndexError
  | [last_key] =>
      match last_key with
      | KStr _ => setitem d last_key v
      | KInt n =>
          d1 ← append_until d n VNone;
          setitem d1 last_key v
      end
  | key :: (next :: _) as rest =>
      match key with
      | KStr _ =>
          '(d1, child) ← setdefault d key (new_container next);
          child' ← set_nested child rest v;
          Ok (with_child d1 key child')
      | KInt n =>
          d1 ← append_until d n (new_container next);
          child ← getitem d1 key;
          child' ← set_nested child rest v;
          Ok (with_child d1 key child')
      end
  end.

Fixpoint get_nested (d : value) (path : list key) : result value :=
  match path with
  | [] => Ok d
  | key :: rest => d' ← getitem d key; get_nested d' rest
  end.

(* ================================================================== *)
(** * create_overlay and generate_base_and_overlays *)
(* ================================================================== *)

(** The report of [DeepDiff(base, full, ignore_order=True)], as far as
    [create_overlay] can see it: a key that is absent is [None].  The
    library itself is not part of the repository. *)
Record change := { old_value : value; new_value : value }.

Record DiffReport := {
  dictionary_item_added : option (list string);
  dictionary_item_removed : option (list string);
  values_changed : option (list (string * change));
  iterable_item_added : option (list (string * value));
  iterable_item_removed : option (list (string * value));
  type_changes : option (list (string * change));
}.

(** [if key in diff: for item in diff[key]: body] *)
Definition for_report {A} (entry : option (list A))
    (body : value -> A -> result value) (overlay : value) : result value :=
  match entry with
  | Some items => for_each body items overlay
  | None => Ok overlay
  end.

(** The document [d] once the object found at [path] has been mutated
    into [new]. *)
Fixpoint with_nested (d : value) (path : list key) (new : value) : value :=
  match path with
  | [] => new
  | k :: rest =>
      match getitem d k with
      | Ok child => with_child d k (with_nested child rest new)
      | Raise _ => d
      end
  end.

(** [while len(parent) <= index: parent.append(None)] and
    [parent[index] = value] on a list [parent]. *)
Definition place_item (parent : value) (index : key) (v : value)
  : result value :=
  match index with
  | KInt n => p ← append_until parent n VNone; setitem p index v
  | KStr _ => Raise TypeError
  end.

(** The body of the loop over [iterable_item_added]. *)
Definition add_iterable_item (overlay : value) (path : list key) (v : value)
  : result value :=
  match path with
  | [] => Raise IndexError
  | _ =>
      let parent_path := removelast path in
      let index := List.last path (KInt 0) in
      parent ← match parent_path with
               | [] => Ok overlay
               | _ => get_nested overlay parent_path
               end;
      if is_list parent then
        parent' ← place_item parent index v;
        Ok (with_nested overlay parent_path parent')
      else
        overlay1 ← set_nested overlay parent_path (VList []);
        parent' ← place_item (VList []) index v;
        Ok (with_nested overlay1 parent_path parent')
  end.

Section Overlay.

Variable DeepDiff : value -> value -> DiffReport.

Definition create_overlay (base full : value) : result value :=
  let diff := DeepDiff base full in
  let overlay := VDict ∅ in
  overlay ← for_report (dictionary_item_added diff)
    (fun overlay item =>
       let path := parse_path item in
       v ← get_nested full path;
       set_nested overlay path v) overlay;
  overlay ← for_report (values_changed diff)
    (fun overlay '(item, change) =>
       let path := parse_path item in
       set_nested overlay path (new_value change)) overlay;
  overlay ← for_report (iterable_item_added diff)
    (fun overlay '(item, v) =>
       add_iterable_item overlay (parse_path item) v) overlay;
  overlay ← for_report (type_changes diff)
    (fun overlay '(item, change) =>
       let path := parse_path item in
       set_nested overlay path (new_value change)) overlay;
  Ok (remove_empty_structures overlay).

(** [read_yaml] returns [None] when the file cannot be read or parsed. *)
Variable read_yaml : string -> value.

Definition generate_base_and_overlays (file_list : list string)
  : result (value * list value) :=
  let data_list := map read_yaml file_list in
  if existsb (fun d => py_eq VNone d) data_list then
    Ok (VNone, [])
  else
    let base := deep_intersection data_list in
    overlays ← map_result (create_overlay base) data_list;
    Ok (base, overlays).

End Overlay.

(* ================================================================== *)
(** * main *)
(* ================================================================== *)

(** The arguments of the command line. *)
Record Namespace := {
  input_files : list string;
  output_prefix : string;
  verbose : bool;
}.

(** [str(n)] for a non-negative integer. *)
Definition str_of_nat (n : nat) : string :=
  NilZero.string_of_uint (Nat.to_uint n).

(** [main], seen through the calls of [save_yaml] it makes, in order,
    each with the data and the file path.  The logger is left out: the
    answer of [save_yaml] only selects the message that is logged. *)
Definition main (DeepDiff : value -> value -> DiffReport)
    (read_yaml : string -> value) (args : Namespace)
  : result (list (value * string)) :=
  '(base, overlays) ←
    generate_base_and_overlays DeepDiff read_yaml (input_files args);
  match base with
  | VNone => Ok []
  | _ =>
      let base_file := String.append (output_prefix args) "_base.yaml" in
      Ok ((remove_empty_structures base, base_file)
            :: imap (fun i overlay =>
                       (remove_empty_structures overlay,
                        String.append (output_prefix args)
                          (String.append "_overlay_"
                             (String.append (str_of_nat (i + 1)) ".yaml"))))
                    overlays)
  end.

(* ================================================================== *)
(** * Vocabulary of the specification *)
(* ================================================================== *)

(** The number of nodes of a value, the measure of the induction on
    values. *)
Fixpoint vsize (v : value) : nat :=
  match v with
  | VDict m => S (map_fold (fun _ x acc => vsize x + acc) 0 m)
  | VList l => S (foldr (fun x acc => vsize x + acc) 0 l)
  | _ => 1
  end.

(** The loop over [zip( *data_list)] of the list branch, by name. *)
Fixpoint zip_intersections (l0 : list value) (ls : list (list value))
  : list value :=
  match l0 with
  | [] => []
  | x :: t =>
      match heads_tails ls with
      | Some (items, ts) =>
          let intersection := deep_intersection_ne x items in
          (if not_in_empties intersection then [intersection] else [])
            ++ zip_intersections t ts
      | None => []
      end
  end.

(** A container all of whose children are dropped by the comprehension. *)
Definition children_all_dropped (c : value) : Prop :=
  match c with
  | VDict m => map_Forall (fun _ v => pruned_child v = None) m
  | VList l => Forall (fun v => pruned_child v = None) l
  | _ => False
  end.

(** The empty container of the kind of [c]. *)
Definition empty_like (c : value) : value :=
  match c with
  | VDict _ => VDict ∅
  | VList _ => VList []
  | _ => c
  end.

(** The two documents of the pruning example of the specification. *)
Definition doc_xy : value :=
  VDict {[ KStr "x" := VDict {[ KStr "y" := VInt 1 ]} ]}.
Definition doc_xz : value :=
  VDict {[ KStr "x" := VDict {[ KStr "z" := VInt 2 ]} ]}.

(** Sequence intersection as the specification words it: the i-th
    elements of all inputs, for i below the shortest length. *)
Definition shortest (ls : list (list value)) : nat :=
  match ls with
  | [] => 0
  | l :: ls' => foldr (fun l' n => Nat.min (length l') n) (length l) ls'
  end.

Definition column (i : nat) (ls : list (list value)) : list value :=
  map (fun l => nth i l VNone) ls.

Definition intersect_by_index (ls : list (list value)) : list value :=
  map (fun i => deep_intersection (column i ls)) (seq 0 (shortest ls)).

(** One successful lookup [d[k]]: a key of a mapping, an index of a
    sequence, or a character of a string. *)
Inductive lookup_step : value -> key -> value -> Prop :=
| step_dict (m : gmap key value) k v :
    m !! k = Some v -> lookup_step (VDict m) k v
| step_list (l : list value) n v :
    l !! n = Some v -> lookup_step (VList l) (KInt n) v
| step_char s n c :
    String.get n s = Some c ->
    lookup_step (VStr s) (KInt n) (VStr (String c EmptyString)).

(** The value reached from [d] by successive lookups along a path. *)
Inductive reaches : value -> list key -> value -> Prop :=
| reaches_here d : reaches d [] d
| reaches_step d k child p v :
    lookup_step d k child -> reaches child p v -> reaches d (k :: p) v.

(** Why a lookup [d[k]] fails, and with which exception. *)
Inductive step_fails : value -> key -> exn -> Prop :=
| fails_key_absent (m : gmap key value) k :
    m !! k = None -> step_fails (VDict m) k KeyError
| fails_index_out_of_range (l : list value) n :
    length l <= n -> step_fails (VList l) (KInt n) IndexError
| fails_char_out_of_range s n :
    String.length s <= n -> step_fails (VStr s) (KInt n) IndexError
| fails_string_step_on_list l s :
    step_fails (VList l) (KStr s) TypeError
| fails_string_step_on_string s s' :
    step_fails (VStr s) (KStr s') TypeError
| fails_not_subscriptable d k :
    match d with VNone | VBool _ | VInt _ => True | _ => False end ->
    step_fails d k TypeError.

(** [w'] is [w] or a container of the same kind that has lost no key and
    is not shorter. *)
Definition grows (w w' : value) : Prop :=
  match w with
  | VDict m => exists m' : gmap key value, w' = VDict m' /\ dom m ⊆ dom m'
  | VList l => exists l', w' = VList l' /\ length l <= length l'
  | _ => w' = w
  end.

(** [d1] is [d] grown, and unchanged at every key but [k]. *)
Definition extends_at (k : key) (d d1 : value) : Prop :=
  grows d d1 /\
  forall k' c, k' <> k -> getitem d k' = Ok c -> getitem d1 k' = Ok c.

(** [contained a b]: the document [b] contains the structure [a].  A
    scalar of [a] is equal (in the sense of [==]) to what [b] has there;
    every key of a mapping of [a] is a key of the mapping of [b], with a
    contained value; the elements of a sequence of [a] are contained, in
    order, in distinct elements of the sequence of [b], which may lie at
    higher indices. *)
Inductive contained : value -> value -> Prop :=
| contained_scalar a b :
    is_scalar a = true -> py_eq b a = true -> contained a b
| contained_dict (m m' : gmap key value) :
    (forall k v, m !! k = Some v ->
                 exists v', m' !! k = Some v' /\ contained v v') ->
    contained (VDict m) (VDict m')
| contained_list l l' :
    embedded l l' -> contained (VList l) (VList l')
with embedded : list value -> list value -> Prop :=
| embedded_nil l' : embedded [] l'
| embedded_skip l y l' : embedded l l' -> embedded l (y :: l')
| embedded_take x l y l' :
    contained x y -> embedded l l' -> embedded (x :: l) (y :: l').

(** The value reached from [d] along [p] when every step is the key of a
    mapping. *)
Fixpoint get_mapping_path (d : value) (p : list key) : option value :=
  match p with
  | [] => Some d
  | k :: p' =>
      match d with
      | VDict m => c ← m !! k; get_mapping_path c p'
      | _ => None
      end
  end.

(** The base of [d0 :: rest], when it is not [None], is contained in
    each of these documents: the statement proved by induction on [d0]. *)
Definition contained_in_all (d0 : value) : Prop :=
  forall rest,
    deep_intersection_ne d0 rest <> VNone ->
    forall d, In d (d0 :: rest) -> contained (deep_intersection_ne d0 rest) d.

(** [covered o f]: every mapping key of [o] is a key of [f] at the same
    place, through all nested mappings; what [o] holds below a sequence or
    as a scalar is not compared. *)
Inductive covered : value -> value -> Prop :=
| covered_dict (m : gmap key value) f :
    (forall k v, m !! k = Some v ->
                 exists fv, dict_get k f = Some fv /\ covered v fv) ->
    covered (VDict m) f
| covered_other o f : is_dict o = false -> covered o f.

(** Two reports with the same additions and changes; they may differ in
    what they report as removed. *)
Definition same_additions (r r' : DiffReport) : Prop :=
  dictionary_item_added r = dictionary_item_added r' /\
  values_changed r = values_changed r' /\
  iterable_item_added r = iterable_item_added r' /\
  type_changes r = type_changes r'.

(** What [create_overlay] relies on from the diff library: a reported
    change or added element carries a path of [full] and the value that
    [full] has there. *)
Definition carries_values_of (full : value) (r : DiffReport) : Prop :=
  (forall items item c,
      values_changed r = Some items -> In (item, c) items ->
      get_nested full (parse_path item) = Ok (new_value c)) /\
  (forall items item v,
      iterable_item_added r = Some items -> In (item, v) items ->
      get_nested full (parse_path item) = Ok v) /\
  (forall items item c,
      type_changes r = Some items -> In (item, c) items ->
      get_nested full (parse_path item) = Ok (new_value c)).

(** The documents and the report of the example where a path of the base
    that is absent from [full] appears in the overlay: [base] is
    [{"a": {0: {"z": 5}}}], [full] is [{"a": [{}, {"z": 1}]}], and the
    difference is a change of type at ['a']. *)
Definition shifted_base : value :=
  VDict {[ KStr "a" := VDict {[ KInt 0 := VDict {[ KStr "z" := VInt 5 ]} ]} ]}.
Definition shifted_full : value :=
  VDict {[ KStr "a" := VList [VDict ∅; VDict {[ KStr "z" := VInt 1 ]}] ]}.
Definition shifted_report : DiffReport :=
  {| dictionary_item_added := None;
     dictionary_item_removed := None;
     values_changed := None;
     iterable_item_added := None;
     iterable_item_removed := None;
     type_changes :=
       Some [("root['a']"%string,
              {| old_value := VDict {[ KInt 0 := VDict {[ KStr "z" := VInt 5 ]} ]};
                 new_value := VList [VDict ∅; VDict {[ KStr "z" := VInt 1 ]}] |})]
  |}.

(** No empty container and no [None] anywhere below the top of [v]. *)
Fixpoint fully_pruned (v : value) : bool :=
  match v with
  | VDict m =>
      map_fold (fun _ x acc => acc && not_in_empties x && fully_pruned x) true m
  | VList l => forallb (fun x => not_in_empties x && fully_pruned x) l
  | _ => true
  end.


(** The text of a path in the notation of the diff library: [root], then
    a quoted key or a decimal index between brackets for each step. *)
Definition step_string (k : key) : string :=
  match k with
  | KStr s => String.append "['" (String.append s "']")
  | KInt n => String.append "[" (String.append (str_of_nat n) "]")
  end.

Definition path_string (p : list key) : string :=
  String.append "root" (foldr (fun k acc => String.append (step_string k) acc) "" p)%string.

(** The two groups that the regular expression of [parse_path] matches
    on the text of a step. *)
Definition component (k : key) : list ascii * list ascii :=
  match k with
  | KStr s => (list_ascii_of_string s, [])
  | KInt n => ([], list_ascii_of_string (str_of_nat n))
  end.

(** A key that can be written between quotes: it has no quote. *)
Definition quotable (k : key) : bool :=
  match k with
  | KStr s => forallb (fun c => negb (PathRegex.is_quote c)) (list_ascii_of_string s)
  | KInt _ => true
  end.

(* ================================================================== *)
(** * The functions on small inputs *)
(* ================================================================== *)

Example py_eq_True_1 : py_eq (VBool true) (VInt 1) = true.
Proof. reflexivity. Qed.

Example parse_path_steps :
  parse_path "root['a'][0]['b c'][12]"
  = [KStr "a"; KInt 0; KStr "b c"; KInt 12].
Proof. vm_compute. reflexivity. Qed.

Example parse_path_root : parse_path "root" = [].
Proof. vm_compute. reflexivity. Qed.

Example parse_path_quoted_digits : parse_path "root['0']['']" = [KStr "0"; KStr ""].
Proof. vm_compute. reflexivity. Qed.

(** A key is in the base only if every document has it. *)
Example deep_intersection_common_key :
  deep_intersection
    [VDict {[ KStr "a" := VInt 1; KStr "b" := VInt 2 ]};
     VDict {[ KStr "a" := VInt 1; KStr "c" := VInt 3 ]}]
  = VDict {[ KStr "a" := VInt 1 ]}.
Proof. vm_compute. reflexivity. Qed.

(** Sequences are intersected by index up to the shortest one, and an
    index where the documents differ leaves no gap. *)
Example deep_intersection_by_index :
  deep_intersection
    [VList [VInt 1; VInt 2; VInt 3];
     VList [VInt 1; VInt 9; VInt 3];
     VList [VInt 1; VInt 2; VInt 3; VInt 4]]
  = VList [VInt 1; VInt 3].
Proof. vm_compute. reflexivity. Qed.

Example deep_intersection_mixed_kinds :
  deep_intersection [VDict {[ KStr "a" := VInt 1 ]}; VList [VInt 1]] = VNone.
Proof. vm_compute. reflexivity. Qed.

(** Intermediate containers are created after the kind of the next
    step, and sequences are filled up to the index. *)
Example set_nested_creates_containers :
  set_nested (VDict ∅) [KStr "l"; KInt 1; KStr "e"] (VInt 6)
  = Ok (VDict {[ KStr "l" := VList [VDict ∅; VDict {[ KStr "e" := VInt 6 ]}] ]}).
Proof. vm_compute. reflexivity. Qed.

Example set_nested_pads_with_None :
  set_nested (VDict ∅) [KStr "l"; KInt 2] (VInt 9)
  = Ok (VDict {[ KStr "l" := VList [VNone; VNone; VInt 9] ]}).
Proof. vm_compute. reflexivity. Qed.

(** An empty dict has no [append]. *)
Example set_nested_index_on_empty_dict :
  set_nested (VDict ∅) [KInt 1] (VInt 6) = Raise AttributeError.
Proof. vm_compute. reflexivity. Qed.

(* ================================================================== *)
(** * Properties of remove_empty_structures *)
(* ================================================================== *)

Section ValueInduction.

Lemma vsize_dict_child (m : gmap key value) k v :
  m !! k = Some v -> vsize v < vsize (VDict m).
Proof.
  intros Hk. cbn [vsize].
  rewrite (map_fold_delete_L _ _ k v m); [lia | | done].
  intros; lia.
Qed.

Lemma vsize_list_child (l : list value) v :
  v ∈ l -> vsize v < vsize (VList l).
Proof.
  cbn [vsize]. induction 1; cbn [foldr]; lia.
Qed.

(** Induction on values with the children of containers as hypotheses. *)
Lemma value_induction (P : value -> Prop) :
  P VNone ->
  (forall b, P (VBool b)) ->
  (forall z, P (VInt z)) ->
  (forall s, P (VStr s)) ->
  (forall l, Forall P l -> P (VList l)) ->
  (forall m : gmap key value, map_Forall (fun _ v => P v) m -> P (VDict m)) ->
  forall v, P v.
Proof.
  intros HN HB HI HS HL HD v.
  remember (vsize v) as n eqn:Hn. revert v Hn.
  induction n as [n IH] using lt_wf_ind. intros v ->.
  destruct v as [| | | |l|m]; auto.
  - apply HL. apply Forall_forall. intros x Hx.
    apply (IH (vsize x)); [by apply vsize_list_child | done].
  - apply HD. intros k x Hx.
    apply (IH (vsize x)); [by eapply vsize_dict_child | done].
Qed.

End ValueInduction.

Section Pruning.

Lemma py_eq_empty_dict x : py_eq x (VDict ∅) = true <-> x = VDict ∅.
Proof.
  split; [|intros ->; cbn; by rewrite map_fold_empty].
  destruct x as [| | | |l|m]; cbn; try done.
  intros [Hsz _]%andb_prop. apply bool_decide_eq_true in Hsz.
  rewrite map_size_empty in Hsz. by apply map_size_empty_inv in Hsz as ->.
Qed.

Lemma py_eq_empty_list x : py_eq x (VList []) = true <-> x = VList [].
Proof.
  split; [|by intros ->].
  destruct x as [| | | |l|m]; cbn; try done. by destruct l.
Qed.

Lemma py_eq_None x : py_eq x VNone = true <-> x = VNone.
Proof. split; [|by intros ->]. by destruct x as [| | | |[]|]. Qed.

(** What the membership test of the comprehensions rejects. *)
Lemma not_in_empties_false x :
  not_in_empties x = false <-> x = VDict ∅ \/ x = VList [] \/ x = VNone.
Proof.
  unfold not_in_empties. rewrite negb_false_iff, !orb_true_iff.
  rewrite py_eq_empty_dict, py_eq_empty_list, py_eq_None. tauto.
Qed.

Lemma not_in_empties_true x :
  not_in_empties x = true <-> x <> VDict ∅ /\ x <> VList [] /\ x <> VNone.
Proof.
  rewrite <-not_false_iff_true, not_in_empties_false. tauto.
Qed.

Lemma remove_empty_structures_dict m :
  remove_empty_structures (VDict m) = VDict (omap pruned_child m).
Proof. reflexivity. Qed.

Lemma remove_empty_structures_list l :
  remove_empty_structures (VList l) = VList (omap pruned_child l).
Proof. reflexivity. Qed.

Lemma pruned_child_Some v r :
  pruned_child v = Some r <->
  r = remove_empty_structures v /\ not_in_empties r = true.
Proof.
  unfold pruned_child.
  destruct (not_in_empties (remove_empty_structures v)) eqn:E.
  - split; [intros [= <-]; done | intros [-> _]; done].
  - split; [done | intros [-> Hk]; congruence].
Qed.

(** A kept child is already pruned: pruning it again keeps it as it is. *)
Lemma pruned_child_fixed v r :
  remove_empty_structures r = r ->
  pruned_child v = Some r -> pruned_child r = Some r.
Proof.
  intros Hr [-> Hk]%pruned_child_Some. apply pruned_child_Some.
  by rewrite Hr.
Qed.

End Pruning.

(* ------------------------------------------------------------------ *)
(** ** Claims about pruning *)

(** C4. Pruning is idempotent: for every value [x],
    [remove_empty_structures (remove_empty_structures x)] equals
    [remove_empty_structures x]. *)
Theorem remove_empty_structures_idempotent :
  forall x : value,
    remove_empty_structures (remove_empty_structures x)
    = remove_empty_structures x.
Proof.
  intros x.
  induction x as [| | | |l IH|m IH] using value_induction; try done.
  - rewrite !remove_empty_structures_list. f_equal.
    induction IH as [|x l Hx _ IHl]; [done|]. cbn [omap list_omap].
    destruct (pruned_child x) as [r|] eqn:E; [|done].
    cbn [omap list_omap].
    assert (pruned_child r = Some r) as ->; [|by rewrite IHl].
    eapply pruned_child_fixed; [|done].
    apply pruned_child_Some in E as [-> _]. done.
  - rewrite !remove_empty_structures_dict. f_equal.
    apply map_eq. intros k. rewrite !lookup_omap.
    destruct (m !! k) as [v|] eqn:Hk; [|done]. cbn.
    destruct (pruned_child v) as [r|] eqn:E; [|done]. cbn.
    eapply pruned_child_fixed; [|done].
    apply pruned_child_Some in E as [-> _]. by eapply IH.
Qed.

(** C9. [remove_empty_structures] returns [None] exactly when its
    argument is [None]; a mapping is returned as a mapping (possibly
    empty), a sequence as a sequence (possibly empty), a scalar as it is:
    a container at the top is never turned into [None]. *)
Theorem remove_empty_structures_keeps_kind :
  forall x : value,
    (remove_empty_structures x = VNone <-> x = VNone) /\
    match x with
    | VDict m => exists m', remove_empty_structures x = VDict m'
    | VList l => exists l', remove_empty_structures x = VList l'
    | _ => remove_empty_structures x = x
    end.
Proof.
  intros x. split.
  - destruct x; cbn; split; congruence.
  - destruct x; cbn; eauto.
Qed.

(** C1, the claim as stated fails: pruning a mapping whose only child is
    dropped gives the empty mapping and not [None], and the deep
    intersection of [{"x": {"y": 1}}] and [{"x": {"z": 2}}] is not
    [None]. *)
Lemma prune_to_absent_counterexample :
  remove_empty_structures (VDict {[ KStr "x" := VDict ∅ ]}) <> VNone /\
  deep_intersection [doc_xy; doc_xz] <> VNone.
Proof. split; vm_compute; discriminate. Qed.

(** C1, amended. Pruning a mapping or a sequence whose children have all
    been dropped yields the empty container of the same kind, which the
    comprehension of an enclosing container then drops; it never yields
    [None].  In particular the deep intersection of [{"x": {"y": 1}}] and
    [{"x": {"z": 2}}] is the empty mapping: the inner mappings have no
    common key, their intersection is the empty mapping, and the key
    ["x"] is dropped. *)
Theorem prune_all_children_dropped :
  forall c : value,
    children_all_dropped c ->
    remove_empty_structures c = empty_like c /\
    remove_empty_structures c <> VNone /\
    pruned_child c = None /\
    deep_intersection [VDict {[ KStr "y" := VInt 1 ]};
                       VDict {[ KStr "z" := VInt 2 ]}] = VDict ∅ /\
    deep_intersection [doc_xy; doc_xz] = VDict ∅.
Proof.
  intros c Hc.
  assert (remove_empty_structures c = empty_like c) as Hr.
  { destruct c as [| | | |l|m]; try done.
    - rewrite remove_empty_structures_list. cbn. f_equal.
      induction Hc as [|x l Hx _ IH]; [done|].
      cbn [omap list_omap]. by rewrite Hx.
    - rewrite remove_empty_structures_dict. cbn. f_equal.
      apply map_eq. intros k. rewrite lookup_omap, lookup_empty.
      destruct (m !! k) as [v|] eqn:Hk; [|done]. cbn. by eapply Hc. }
  split; [|split; [|split; [|split]]].
  - done.
  - rewrite Hr. by destruct c.
  - unfold pruned_child. rewrite Hr.
    by destruct c as [| | | |l|m].
  - vm_compute. reflexivity.
  - vm_compute. reflexivity.
Qed.

Lemma prune_all_children_dropped_witness :
  remove_empty_structures (VDict {[ KStr "x" := VDict ∅ ]})
  = empty_like (VDict {[ KStr "x" := VDict ∅ ]}).
Proof.
  apply (prune_all_children_dropped (VDict {[ KStr "x" := VDict ∅ ]})).
  cbn. apply map_Forall_singleton. vm_compute. reflexivity.
Defined.

(* ================================================================== *)
(** * Properties of deep_intersection *)
(* ================================================================== *)

Section Intersection.

(** The three branches of [deep_intersection] on a non-empty list. *)
Lemma deep_intersection_ne_dicts m0 rest :
  forallb is_dict rest = true ->
  deep_intersection_ne (VDict m0) rest =
  remove_empty_structures (VDict (map_imap (fun k v =>
    if forallb (has_key k) rest
    then Some (deep_intersection_ne v (omap (dict_get k) rest))
    else None) m0)).
Proof. intros H. cbn. by rewrite H. Qed.

Lemma deep_intersection_ne_lists l0 rest :
  forallb is_list rest = true ->
  deep_intersection_ne (VList l0) rest =
  list_or_None (zip_intersections l0 (omap list_items rest)).
Proof. intros H. cbn. rewrite H. reflexivity. Qed.

Lemma deep_intersection_ne_other d0 rest :
  forallb is_dict (d0 :: rest) = false ->
  forallb is_list (d0 :: rest) = false ->
  deep_intersection_ne d0 rest =
  if forallb (fun d => py_eq d d0) (d0 :: rest) then d0 else VNone.
Proof.
  intros H1 H2. destruct d0; cbn in *; rewrite ?H1, ?H2; reflexivity.
Qed.

(** The dict branch as the source writes it: for each common key, the
    intersection of [[d[k] for d in data_list if k in d]]. *)
Lemma deep_intersection_dicts (m0 : gmap key value) rest :
  forallb is_dict rest = true ->
  deep_intersection (VDict m0 :: rest) =
  remove_empty_structures (VDict (map_imap (fun k _ =>
    if forallb (has_key k) (VDict m0 :: rest)
    then Some (deep_intersection (omap (dict_get k) (VDict m0 :: rest)))
    else None) m0)).
Proof.
  intros H. cbn [deep_intersection].
  rewrite deep_intersection_ne_dicts by done. do 2 f_equal.
  apply map_eq. intros k. rewrite !map_lookup_imap.
  destruct (m0 !! k) as [v|] eqn:E; [|done]. cbn.
  rewrite E, bool_decide_eq_true_2 by eauto. done.
Qed.

Lemma forallb_is_list_VList ls : forallb is_list (map VList ls) = true.
Proof. by induction ls. Qed.

Lemma omap_list_items_VList ls : omap list_items (map VList ls) = ls.
Proof. induction ls as [|l ls IH]; [done|]. cbn. by rewrite IH. Qed.

Lemma shortest_nil_l ls : shortest ([] :: ls) = 0.
Proof.
  cbn. induction ls as [|l ls IH]; [done|]. cbn. rewrite IH. lia.
Qed.

Lemma shortest_cons l ls :
  shortest (l :: ls) = foldr (fun l' n => Nat.min (length l') n) (length l) ls.
Proof. reflexivity. Qed.

Lemma heads_tails_None l0 ls :
  heads_tails ls = None -> shortest (l0 :: ls) = 0.
Proof.
  rewrite shortest_cons.
  induction ls as [|l ls IH]; [done|]. cbn.
  destruct l as [|x t]; [done|].
  destruct (heads_tails ls) as [[items ts]|]; [done|].
  intros _. rewrite IH by done. lia.
Qed.

Lemma heads_tails_Some x t ls items ts :
  heads_tails ls = Some (items, ts) ->
  shortest ((x :: t) :: ls) = S (shortest (t :: ts)) /\
  column 0 ((x :: t) :: ls) = x :: items /\
  forall i, column (S i) ((x :: t) :: ls) = column i (t :: ts).
Proof.
  rewrite !shortest_cons. unfold column. cbn [map nth].
  revert items ts. induction ls as [|l ls IH]; intros items ts.
  - intros [= <- <-]. done.
  - cbn [heads_tails]. destruct l as [|y u]; [done|].
    destruct (heads_tails ls) as [[items' ts']|]; [|done].
    intros [= <- <-]. destruct (IH _ _ eq_refl) as (IH1 & IH2 & IH3).
    cbn [foldr map nth]. rewrite IH1. split; [cbn [length]; lia|].
    split; [congruence|]. intros i. specialize (IH3 i). congruence.
Qed.

(** The loop over [zip] computes the intersections by index and leaves
    out those that are empty or [None]. *)
Lemma zip_intersections_by_index l0 ls :
  zip_intersections l0 ls
  = List.filter not_in_empties (intersect_by_index (l0 :: ls)).
Proof.
  unfold intersect_by_index.
  revert ls. induction l0 as [|x t IH]; intros ls.
  - by rewrite shortest_nil_l.
  - cbn [zip_intersections].
    destruct (heads_tails ls) as [[items ts]|] eqn:E.
    + destruct (heads_tails_Some x t _ _ _ E) as (-> & H0 & HS).
      cbn [seq map List.filter]. rewrite H0. cbn [deep_intersection].
      rewrite <-seq_shift, map_map. rewrite IH.
      rewrite (map_ext _ _ (fun i => f_equal deep_intersection (HS i))).
      by destruct (not_in_empties _).
    + by rewrite (heads_tails_None _ _ E).
Qed.

End Intersection.

(** C3. For every non-empty list of inputs that are all sequences,
    [deep_intersection] intersects the i-th elements of all inputs for i
    from 0 to the shortest length minus 1, removes every element whose
    intersection is [{}], [[]] or [None] (the following elements move up,
    no placeholder is left), and returns the sequence of what remains, or
    [None] when nothing remains. *)
Theorem deep_intersection_of_sequences :
  forall ls : list (list value),
    ls <> [] ->
    deep_intersection (map VList ls) =
    list_or_None (List.filter not_in_empties (intersect_by_index ls)).
Proof.
  intros [|l0 rest] Hne; [done|]. cbn [map deep_intersection].
  rewrite deep_intersection_ne_lists by apply forallb_is_list_VList.
  by rewrite omap_list_items_VList, zip_intersections_by_index.
Qed.

Lemma deep_intersection_of_sequences_witness :
  deep_intersection
    (map VList [[VInt 1; VInt 2; VInt 3]; [VInt 9; VInt 2]]) =
  list_or_None
    (List.filter not_in_empties
       (intersect_by_index [[VInt 1; VInt 2; VInt 3]; [VInt 9; VInt 2]])).
Proof.
  apply (deep_intersection_of_sequences
           [[VInt 1; VInt 2; VInt 3]; [VInt 9; VInt 2]]).
  discriminate.
Defined.

(* ================================================================== *)
(** * Properties of get_nested and set_nested *)
(* ================================================================== *)

Section Paths.

Lemma string_get_None s n :
  String.get n s = None <-> String.length s <= n.
Proof.
  revert n. induction s as [|c s IH]; intros n; cbn.
  - split; [lia|done].
  - destruct n as [|n]; [split; [done|lia]|]. rewrite IH. lia.
Qed.

Lemma getitem_Ok d k v : getitem d k = Ok v <-> lookup_step d k v.
Proof.
  split.
  - destruct d as [| | |s|l|m]; try done; cbn.
    + destruct k as [|n]; [done|].
      destruct (String.get n s) eqn:E; [|done]. intros [= <-].
      by constructor.
    + destruct k as [|n]; [done|].
      destruct (l !! n) eqn:E; [|done]. intros [= <-]. by constructor.
    + destruct (m !! k) eqn:E; [|done]. intros [= <-]. by constructor.
  - destruct 1 as [m k v H|l n v H|s n c H]; cbn; by rewrite H.
Qed.

Lemma getitem_Raise d k e : getitem d k = Raise e -> step_fails d k e.
Proof.
  destruct d as [| | |s|l|m]; cbn.
  - intros [= <-]. by constructor.
  - intros [= <-]. by constructor.
  - intros [= <-]. by constructor.
  - destruct k as [|n]; [intros [= <-]; constructor|].
    destruct (String.get n s) eqn:E; [done|]. intros [= <-].
    constructor. by apply string_get_None.
  - destruct k as [|n]; [intros [= <-]; constructor|].
    destruct (l !! n) eqn:E; [done|]. intros [= <-].
    constructor. by apply lookup_ge_None.
  - destruct (m !! k) eqn:E; [done|]. intros [= <-]. by constructor.
Qed.

Lemma get_nested_cons d k p :
  get_nested d (k :: p) = d' ← getitem d k; get_nested d' p.
Proof. reflexivity. Qed.

Lemma get_nested_Ok d p v : get_nested d p = Ok v <-> reaches d p v.
Proof.
  revert d. induction p as [|k p IH]; intros d.
  - cbn. split; [intros [= <-]; constructor|by inversion 1].
  - rewrite get_nested_cons. split.
    + destruct (getitem d k) as [c|e] eqn:E; [|done]. cbn. intros H.
      econstructor; [by apply getitem_Ok|by apply IH].
    + inversion 1 as [|? ? c ? ? Hs Hr]; subst.
      apply getitem_Ok in Hs as ->. cbn. by apply IH.
Qed.

Lemma get_nested_Raise d p e :
  get_nested d p = Raise e ->
  exists pre k post node,
    p = pre ++ k :: post /\ reaches d pre node /\ step_fails node k e.
Proof.
  revert d. induction p as [|k p IH]; intros d; [done|].
  rewrite get_nested_cons.
  destruct (getitem d k) as [c|e'] eqn:E; cbn.
  - intros (pre & k' & post & node & -> & Hr & Hf)%IH.
    exists (k :: pre), k', post, node. split; [done|]. split; [|done].
    econstructor; [by apply getitem_Ok|done].
  - intros [= ->]. exists [], k, p, d. split; [done|].
    split; [constructor|by apply getitem_Raise].
Qed.

End Paths.

(** C6, the claim as stated fails: a string step on a sequence raises a
    [TypeError], which is not a [LookupError], and an integer step on a
    string scalar inside its length raises nothing. *)
Lemma get_nested_LookupError_counterexample :
  get_nested (VList [VInt 1]) [KStr "a"] = Raise TypeError /\
  is_LookupError TypeError = false /\
  get_nested (VStr "ab") [KInt 0] = Ok (VStr "a").
Proof. repeat split. Qed.

(** C6, amended. For every document and path, [get_nested] either returns
    the value reached by successive lookups (a key of a mapping, an index
    of a sequence, a character of a string scalar), or fails at the first
    step that cannot be taken: with a [KeyError] when the node is a
    mapping without that key (also for an integer step), with an
    [IndexError] when an integer step is beyond the end of a sequence or
    of a string scalar, which are the two kinds of [LookupError]; and with
    a [TypeError], which is not a [LookupError], when a string step meets
    a sequence or a string scalar, or any step meets [None], a boolean or
    an integer. *)
Theorem get_nested_outcome :
  forall (d : value) (p : list key),
    match get_nested d p with
    | Ok v => reaches d p v
    | Raise e =>
        exists pre k post node,
          p = pre ++ k :: post /\ reaches d pre node /\ step_fails node k e /\
          (is_LookupError e = true <->
           is_dict node = true \/
           exists n, k = KInt n /\ (is_list node = true \/ exists s, node = VStr s))
    end.
Proof.
  intros d p. destruct (get_nested d p) as [v|e] eqn:E.
  - by apply get_nested_Ok.
  - apply get_nested_Raise in E as (pre & k & post & node & -> & Hr & Hf).
    exists pre, k, post, node. do 3 (split; [done|]).
    destruct Hf as [m k H|l n H|s n H|l s|s s'|d' k H]; cbn.
    + split; [by left|done].
    + split; [|done]. intros _. right. exists n. split; [done|by left].
    + split; [|done]. intros _. right. exists n. split; [done|]. right.
      by exists s.
    + split; [done|]. intros [?|(n & ? & _)]; done.
    + split; [done|]. intros [?|(n & ? & _)]; done.
    + split; [done|].
      destruct d'; try done; intros [?|(n & _ & [?|[s ?]])]; done.
Qed.

Section SetNested.

#[local] Arguments set_nested : simpl never.
#[local] Arguments get_nested : simpl never.

Lemma set_nested_last d k v :
  set_nested d [k] v =
  match k with
  | KStr _ => setitem d k v
  | KInt n => d1 ← append_until d n VNone; setitem d1 k v
  end.
Proof. reflexivity. Qed.

Lemma set_nested_step d k next p v :
  set_nested d (k :: next :: p) v =
  match k with
  | KStr _ =>
      '(d1, child) ← setdefault d k (new_container next);
      child' ← set_nested child (next :: p) v;
      Ok (with_child d1 k child')
  | KInt n =>
      d1 ← append_until d n (new_container next);
      child ← getitem d1 k;
      child' ← set_nested child (next :: p) v;
      Ok (with_child d1 k child')
  end.
Proof. reflexivity. Qed.

(** Strings are immutable: a walk that enters one never completes. *)
Lemma set_nested_string s p v d' : set_nested (VStr s) p v <> Ok d'.
Proof.
  revert s d'. induction p as [|k p IH]; intros s d'; [done|].
  destruct p as [|next p].
  - rewrite set_nested_last. destruct k as [|n]; [done|]. cbn.
    by destruct (decide _).
  - rewrite set_nested_step. destruct k as [|n]; [done|]. cbn.
    destruct (decide _); [done|]. cbn.
    destruct (String.get n s) as [c|]; [|done]. cbn.
    destruct (set_nested (VStr (String c EmptyString)) (next :: p) v)
      eqn:E; [|done].
    by apply IH in E.
Qed.

Lemma append_until_Ok d n placeholder d1 :
  append_until d n placeholder = Ok d1 ->
  (exists l, d = VList l /\
             d1 = VList (l ++ replicate (S n - length l) placeholder)) \/
  (d1 = d /\ ((exists m : gmap key value, d = VDict m /\ n < size m) \/
              exists s, d = VStr s /\ n < String.length s)).
Proof.
  destruct d as [| | |s|l|m]; cbn; try done.
  - destruct (decide _); [done|]. intros [= <-]. right.
    split; [done|]. right. exists s. split; [done|lia].
  - intros [= <-]. left. eauto.
  - destruct (decide _); [done|]. intros [= <-]. right.
    split; [done|]. left. exists m. split; [done|lia].
Qed.

Lemma setitem_getitem d k v d' :
  setitem d k v = Ok d' -> getitem d' k = Ok v.
Proof.
  destruct d as [| | |s|l|m]; cbn; try done.
  - destruct k as [|n]; [done|]. destruct (decide _); [|done].
    intros [= <-]. cbn. by rewrite list_lookup_insert_eq.
  - intros [= <-]. cbn. by rewrite lookup_insert_eq.
Qed.

(** After a successful lookup [d[k]], the child put back is found. *)
Lemma with_child_getitem d k c child :
  getitem d k = Ok c ->
  (forall s, d <> VStr s) ->
  getitem (with_child d k child) k = Ok child.
Proof.
  destruct d as [| | |s|l|m]; cbn; try done.
  - by intros _ Hs; destruct (Hs s).
  - destruct k as [|n]; [done|]. destruct (l !! n) eqn:E; [|done].
    intros _ _. cbn. apply lookup_lt_Some in E.
    by rewrite list_lookup_insert_eq.
  - intros _ _. by rewrite lookup_insert_eq.
Qed.


(** C10. Writing then reading: for every document [d], path and value
    [v], when [set_nested d path v] completes without an exception, which
    an empty path never does, [get_nested] on the resulting document and
    the same path returns [v]. *)
Theorem set_nested_then_get_nested :
  forall (d : value) (p : list key) (v d' : value),
    set_nested d p v = Ok d' -> get_nested d' p = Ok v.
Proof.
  intros d p v d'.
  revert d d'. induction p as [|k p IH]; intros d d'; [done|].
  destruct p as [|next p].
  - rewrite set_nested_last, get_nested_cons. intros H.
    assert (getitem d' k = Ok v) as ->; [|done].
    destruct k as [s|n]; [by eapply setitem_getitem|].
    destruct (append_until d n VNone) as [d1|] eqn:E; [|done].
    by eapply setitem_getitem.
  - rewrite set_nested_step, get_nested_cons.
    destruct k as [s|n].
    + destruct d as [| | | | |m]; try done. cbn [setdefault].
      destruct (m !! KStr s) as [c|] eqn:E; cbn;
        (destruct (set_nested _ (next :: p) v) as [child'|] eqn:Hc; [|done]);
        cbn; intros [= <-]; cbn; rewrite lookup_insert_eq; cbn;
        by eapply IH.
    + destruct (append_until d n _) as [d1|] eqn:E; [|done]. cbn.
      destruct (getitem d1 (KInt n)) as [c|] eqn:Hg; [|done]. cbn.
      destruct (set_nested c (next :: p) v) as [child'|] eqn:Hc; [|done].
      cbn. intros [= <-].
      rewrite (with_child_getitem _ _ c); [by eapply IH|done|].
      intros s ->. cbn in Hg. destruct (String.get n s); [|done].
      injection Hg as <-. by apply set_nested_string in Hc.
Qed.

Lemma set_nested_then_get_nested_witness :
  get_nested (VDict {[ KStr "l" := VList [VDict ∅; VDict {[ KStr "e" := VInt 6 ]}] ]})
             [KStr "l"; KInt 1; KStr "e"] = Ok (VInt 6).
Proof.
  apply (set_nested_then_get_nested (VDict ∅) [KStr "l"; KInt 1; KStr "e"]).
  vm_compute. reflexivity.
Defined.

End SetNested.

Section NeverShrinks.

#[local] Arguments set_nested : simpl never.
#[local] Arguments get_nested : simpl never.

Lemma grows_refl w : grows w w.
Proof. destruct w; cbn; eauto. Qed.

Lemma grows_trans w1 w2 w3 : grows w1 w2 -> grows w2 w3 -> grows w1 w3.
Proof.
  destruct w1 as [| | | |l|m]; cbn; try (intros ->; done).
  - intros (l2 & -> & H2) (l3 & -> & H3). exists l3. split; [done|lia].
  - intros (m2 & -> & H2) (m3 & -> & H3). exists m3.
    split; [done|set_solver].
Qed.

Lemma extends_at_trans k d1 d2 d3 :
  extends_at k d1 d2 -> extends_at k d2 d3 -> extends_at k d1 d3.
Proof.
  intros [G1 H1] [G2 H2]. split; [by eapply grows_trans|]. eauto.
Qed.

Lemma extends_at_setitem d k v d' : setitem d k v = Ok d' -> extends_at k d d'.
Proof.
  destruct d as [| | |s|l|m]; cbn; try done.
  - destruct k as [|n]; [done|]. destruct (decide _); [|done].
    intros [= <-]. split.
    + exists (<[n:=v]> l). by rewrite length_insert.
    + intros [|n'] c Hne; cbn; [done|].
      rewrite list_lookup_insert_ne; [done|congruence].
  - intros [= <-]. split.
    + exists (<[k:=v]> m). split; [done|]. rewrite dom_insert. set_solver.
    + intros k' c Hne. cbn. by rewrite lookup_insert_ne.
Qed.

Lemma extends_at_with_child d k child : extends_at k d (with_child d k child).
Proof.
  destruct d as [| | |s|l|m]; cbn; try (split; [done|auto]).
  - destruct k as [|n]; [split; [apply (grows_refl (VList l))|auto]|].
    split.
    + exists (<[n:=child]> l). by rewrite length_insert.
    + intros [|n'] c Hne; cbn; [done|].
      rewrite list_lookup_insert_ne; [done|congruence].
  - split.
    + exists (<[k:=child]> m). split; [done|]. rewrite dom_insert.
      set_solver.
    + intros k' c Hne. cbn. by rewrite lookup_insert_ne.
Qed.

Lemma append_until_keeps d n placeholder d1 :
  append_until d n placeholder = Ok d1 ->
  grows d d1 /\ forall k c, getitem d k = Ok c -> getitem d1 k = Ok c.
Proof.
  intros [(l & -> & ->)|(-> & _)]%append_until_Ok.
  - split.
    + eexists. split; [done|]. rewrite length_app. lia.
    + intros [|n'] c; cbn; [done|].
      destruct (l !! n') eqn:E; [|done].
      by rewrite (lookup_app_l_Some _ _ _ _ E).
  - split; [apply grows_refl|auto].
Qed.

Lemma extends_at_setdefault d k default d1 child :
  setdefault d k default = Ok (d1, child) ->
  extends_at k d d1 /\ getitem d1 k = Ok child /\
  forall c, getitem d k = Ok c -> child = c.
Proof.
  destruct d as [| | | | |m]; cbn; try done.
  destruct (m !! k) as [c0|] eqn:E; intros [= <- <-].
  - split; [split; [apply (grows_refl (VDict m))|auto]|].
    cbn. rewrite E. split; [done|]. by intros c [= ->].
  - split; [apply (extends_at_setitem (VDict m) k default); done|].
    cbn. rewrite lookup_insert_eq. split; [done|]. done.
Qed.

(** The first step of a completed [set_nested] leaves the root grown and
    its other children as they were. *)
Lemma set_nested_root d k p v d' :
  set_nested d (k :: p) v = Ok d' -> extends_at k d d'.
Proof.
  destruct p as [|next p].
  - rewrite set_nested_last. destruct k as [s|n].
    + apply extends_at_setitem.
    + destruct (append_until d n VNone) as [d1|] eqn:E; [|done]. cbn.
      intros H%extends_at_setitem.
      apply append_until_keeps in E as [G K].
      eapply extends_at_trans; [|done]. split; [done|auto].
  - rewrite set_nested_step. destruct k as [s|n].
    + destruct (setdefault d (KStr s) _) as [[d1 child]|] eqn:E; [|done].
      cbn. destruct (set_nested child _ v) as [child'|]; [|done].
      cbn. intros [= <-]. apply extends_at_setdefault in E as (E & _).
      eapply extends_at_trans; [done|apply extends_at_with_child].
    + destruct (append_until d n _) as [d1|] eqn:E; [|done]. cbn.
      destruct (getitem d1 (KInt n)) as [c|]; [|done]. cbn.
      destruct (set_nested c _ v) as [child'|]; [|done].
      cbn. intros [= <-]. apply append_until_keeps in E as [G K].
      eapply extends_at_trans; [|apply extends_at_with_child].
      split; [done|auto].
Qed.

(** The child a completed [set_nested] descends into is the child that
    was there, when there was one, and its new state is put back. *)
Lemma set_nested_descends d k next p v d' c :
  set_nested d (k :: next :: p) v = Ok d' ->
  getitem d k = Ok c ->
  exists child', set_nested c (next :: p) v = Ok child' /\
                 getitem d' k = Ok child'.
Proof.
  rewrite set_nested_step. intros H Hc. destruct k as [s|n].
  - destruct (setdefault d (KStr s) _) as [[d1 child]|] eqn:E; [|done].
    cbn in H. apply extends_at_setdefault in E as (_ & Hg & Hsame).
    rewrite (Hsame _ Hc) in *.
    destruct (set_nested c _ v) as [child'|] eqn:Hs; [|done].
    injection H as <-. exists child'. split; [done|].
    eapply with_child_getitem; [done|].
    intros s' ->. done.
  - destruct (append_until d n _) as [d1|] eqn:E; [|done]. cbn in H.
    apply append_until_keeps in E as [_ K]. rewrite (K _ _ Hc) in H.
    cbn in H. destruct (set_nested c _ v) as [child'|] eqn:Hs; [|done].
    injection H as <-. exists child'. split; [done|].
    eapply with_child_getitem; [by apply K|].
    intros s' ->. apply K in Hc. cbn in Hc.
    destruct (String.get n s'); [|done]. injection Hc as <-.
    by apply set_nested_string in Hs.
Qed.


(** C7, the claim as stated fails: the assignment at the addressed
    position replaces what was there, so a sequence of the document can
    become shorter and a mapping key of the document can disappear. *)
Lemma set_nested_shrinks_counterexample :
  set_nested (VDict {[ KStr "a" := VList [VInt 1; VInt 2; VInt 3] ]})
             [KStr "a"] (VList [])
  = Ok (VDict {[ KStr "a" := VList [] ]}) /\
  get_nested (VDict {[ KStr "a" := VDict {[ KStr "b" := VInt 1 ]} ]})
             [KStr "a"; KStr "b"] = Ok (VInt 1) /\
  set_nested (VDict {[ KStr "a" := VDict {[ KStr "b" := VInt 1 ]} ]})
             [KStr "a"] (VInt 5)
  = Ok (VDict {[ KStr "a" := VInt 5 ]}) /\
  get_nested (VDict {[ KStr "a" := VInt 5 ]}) [KStr "a"; KStr "b"]
  = Raise TypeError.
Proof. repeat split; vm_compute; reflexivity. Qed.

(** C7, amended. [set_nested] never shrinks the structure outside the
    value it overwrites: when [set_nested d path v] completes, every
    position [q] of [d] that is neither the addressed position nor below
    it is still a position of the document; a mapping found there has
    kept all its keys and a sequence found there is at least as long as
    before; and off the path (when [q] is not a prefix of [path]) the
    value is unchanged.  What was stored at the addressed position itself
    is replaced by [v]. *)
Theorem set_nested_never_shrinks :
  forall (d : value) (p : list key) (v d' : value),
    set_nested d p v = Ok d' ->
    forall (q : list key) (w : value),
      ~ p `prefix_of` q ->
      get_nested d q = Ok w ->
      exists w', get_nested d' q = Ok w' /\ grows w w' /\
                 (~ q `prefix_of` p -> w' = w).
Proof.
  intros d p. revert d.
  induction p as [|k p IH]; intros d v d' Hset q w Hpre Hget; [done|].
  destruct q as [|k' q].
  - injection Hget as <-. exists d'. split; [done|].
    split; [by eapply set_nested_root|].
    intros []. apply prefix_nil.
  - rewrite get_nested_cons in Hget.
    destruct (getitem d k') as [c|] eqn:Hc; [|done]. cbn in Hget.
    destruct (decide (k' = k)) as [->|Hne].
    + destruct p as [|next p].
      { destruct Hpre. by apply prefix_cons, prefix_nil. }
      destruct (set_nested_descends _ _ _ _ _ _ _ Hset Hc)
        as (child' & Hs & Hg).
      destruct (IH _ _ _ Hs q w) as (w' & Hw & G & Hsame); [|done|].
      { intros ?. apply Hpre. by apply prefix_cons. }
      exists w'. rewrite get_nested_cons, Hg. split; [done|].
      split; [done|]. intros Hq. apply Hsame. intros ?. apply Hq.
      by apply prefix_cons.
    + apply set_nested_root in Hset as [_ K].
      exists w. rewrite get_nested_cons, (K _ _ Hne Hc).
      split; [done|]. split; [apply grows_refl|done].
Qed.

Lemma set_nested_never_shrinks_witness :
  exists w',
    get_nested (VDict {[ KStr "l" := VList [VInt 1; VNone; VInt 9] ]})
               [KStr "l"] = Ok w' /\
    grows (VList [VInt 1]) w' /\
    (~ [KStr "l"] `prefix_of` [KStr "l"; KInt 2] -> w' = VList [VInt 1]).
Proof.
  apply (set_nested_never_shrinks
           (VDict {[ KStr "l" := VList [VInt 1] ]}) [KStr "l"; KInt 2] (VInt 9)).
  - vm_compute. reflexivity.
  - apply (bool_decide_unpack _). vm_compute. reflexivity.
  - vm_compute. reflexivity.
Defined.

End NeverShrinks.

(* ================================================================== *)
(** * Properties of generate_base_and_overlays *)
(* ================================================================== *)

(** C8. [generate_base_and_overlays] stops at a load failure: when
    [read_yaml] returns [None] for one of the files, the result is
    [(None, [])], whatever the other documents are and whatever the diff
    library would answer: no intersection and no overlay is computed. *)
Theorem generate_base_and_overlays_load_failure :
  forall (DeepDiff : value -> value -> DiffReport)
         (read_yaml : string -> value) (file_list : list string),
    (exists file, In file file_list /\ read_yaml file = VNone) ->
    generate_base_and_overlays DeepDiff read_yaml file_list = Ok (VNone, []).
Proof.
  intros DeepDiff read_yaml file_list (file & Hin & Hfail).
  unfold generate_base_and_overlays.
  assert (existsb (fun d => py_eq VNone d) (map read_yaml file_list) = true)
    as ->; [|done].
  apply existsb_exists. exists VNone. split; [|done].
  rewrite <-Hfail. by apply in_map.
Qed.

Lemma generate_base_and_overlays_load_failure_witness :
  generate_base_and_overlays
    (fun _ _ => Build_DiffReport None None None None None None)
    (fun file => if bool_decide (file = "missing.yaml"%string)
                 then VNone else VDict {[ KStr "a" := VInt 1 ]})
    ["a.yaml"%string; "missing.yaml"%string]
  = Ok (VNone, []).
Proof.
  apply generate_base_and_overlays_load_failure.
  exists "missing.yaml"%string. split; [cbn; auto|reflexivity].
Defined.

(* ================================================================== *)
(** * The base is contained in every document *)
(* ================================================================== *)

Section BaseContained.

Lemma embedded_tail x l l' : embedded (x :: l) l' -> embedded l l'.
Proof.
  intros H. remember (x :: l) as xl eqn:E. revert x l E.
  induction H as [l'|xl y l' H IH|x' xl y l' Hc H IH]; intros x l E.
  - done.
  - apply embedded_skip. by eapply IH.
  - injection E as -> ->. by apply embedded_skip.
Qed.

(** Pruning only drops: what is pruned is contained wherever the
    original is. *)
Lemma contained_prune a :
  forall b, contained a b -> contained (remove_empty_structures a) b.
Proof.
  induction a as [|b0|z|s|l IH|m IH] using value_induction; intros b H;
    try done.
  - inversion H as [? ? Hs|?|? l' He]; subst; [done|].
    rewrite remove_empty_structures_list. apply contained_list. clear H.
    induction He as [l'|l y l' He IHe|x l y l' Hc He IHe].
    + constructor.
    + apply embedded_skip. by apply IHe.
    + apply Forall_cons in IH as [Hx IH]. cbn [omap list_omap].
      destruct (pruned_child x) as [r|] eqn:E.
      * apply pruned_child_Some in E as [-> _].
        apply embedded_take; [by apply Hx|by apply IHe].
      * apply embedded_skip. by apply IHe.
  - inversion H as [? ? Hs| ? m' Hm|]; subst; [done|].
    rewrite remove_empty_structures_dict. apply contained_dict.
    intros k r (v & [-> _]%pruned_child_Some & Hv)%lookup_omap_Some.
    destruct (Hm _ _ Hv) as (v' & Hv' & Hc). exists v'.
    split; [done|]. by eapply IH.
Qed.

Lemma py_eq_dict_r d m : py_eq d (VDict m) = true -> is_dict d = true.
Proof. by destruct d. Qed.

Lemma py_eq_list_r d l : py_eq d (VList l) = true -> is_list d = true.
Proof. by destruct d. Qed.

(** Values that all compare equal, of which not all are mappings and not
    all are sequences, are scalars. *)
Lemma all_equal_scalar d0 rest :
  forallb is_dict (d0 :: rest) = false ->
  forallb is_list (d0 :: rest) = false ->
  forallb (fun d => py_eq d d0) (d0 :: rest) = true ->
  is_scalar d0 = true.
Proof.
  intros Hd Hl He. destruct d0 as [| | | |l|m]; try done; exfalso.
  - assert (forallb is_list (VList l :: rest) = true); [|congruence].
    apply forallb_forall. intros d Hin.
    eapply py_eq_list_r, (proj1 (forallb_forall _ _) He). done.
  - assert (forallb is_dict (VDict m :: rest) = true); [|congruence].
    apply forallb_forall. intros d Hin.
    eapply py_eq_dict_r, (proj1 (forallb_forall _ _) He). done.
Qed.

Lemma heads_tails_elem ls items ts ld :
  heads_tails ls = Some (items, ts) ->
  In ld ls ->
  exists y ld', ld = y :: ld' /\ In y items /\ In ld' ts.
Proof.
  revert items ts. induction ls as [|l ls IH]; intros items ts; [done|].
  cbn [heads_tails]. destruct l as [|x t]; [done|].
  destruct (heads_tails ls) as [[items' ts']|]; [|done].
  intros [= <- <-] [<-|Hin].
  - exists x, t. cbn. auto.
  - destruct (IH _ _ eq_refl Hin) as (y & ld' & -> & ? & ?).
    exists y, ld'. cbn. auto.
Qed.

Lemma not_in_empties_not_None r : not_in_empties r = true -> r <> VNone.
Proof. intros H%not_in_empties_true. tauto. Qed.

Lemma zip_intersections_embedded l0 :
  Forall contained_in_all l0 ->
  forall ls ld, In ld (l0 :: ls) -> embedded (zip_intersections l0 ls) ld.
Proof.
  induction 1 as [|x t Hx _ IH]; intros ls ld Hin; [constructor|].
  cbn [zip_intersections].
  destruct (heads_tails ls) as [[items ts]|] eqn:E; [|constructor].
  assert (exists y ld', ld = y :: ld' /\ In y (x :: items) /\ In ld' (t :: ts))
    as (y & ld' & -> & Hy & Hld').
  { destruct Hin as [<-|Hin]; [exists x, t; cbn; auto|].
    destruct (heads_tails_elem _ _ _ _ E Hin) as (y & ld' & -> & ? & ?).
    exists y, ld'. cbn. auto. }
  destruct (not_in_empties (deep_intersection_ne x items)) eqn:Hk; cbn [app].
  - apply embedded_take; [|by apply IH].
    apply Hx; [by apply not_in_empties_not_None|done].
  - apply embedded_skip. by apply IH.
Qed.

Lemma deep_intersection_ne_contained d0 : contained_in_all d0.
Proof.
  induction d0 as [|b0|z|s|l0 IH|m0 IH] using value_induction;
    intros rest Hne d Hin.
  1-4: rewrite deep_intersection_ne_other in * by done;
       destruct (forallb _ _) eqn:He; [|done];
       apply contained_scalar; [done|];
       by apply (proj1 (forallb_forall _ _) He).
  - (* sequences *)
    destruct (forallb is_list rest) eqn:Hl.
    + rewrite deep_intersection_ne_lists in * by done.
      destruct (zip_intersections l0 (omap list_items rest)) as [|r rs] eqn:Ez;
        [done|]. cbn [list_or_None]. rewrite <-Ez.
      assert (exists ld, d = VList ld /\ In ld (l0 :: omap list_items rest))
        as (ld & -> & Hld).
      { destruct Hin as [<-|Hin]; [exists l0; cbn; auto|].
        pose proof (proj1 (forallb_forall _ _) Hl _ Hin) as Hd.
        destruct d as [| | | |ld|]; try done. exists ld. split; [done|].
        right. apply list_elem_of_In, list_elem_of_omap. exists (VList ld).
        split; [by apply list_elem_of_In|done]. }
      apply contained_list. by apply zip_intersections_embedded.
    + rewrite deep_intersection_ne_other in * by (cbn; by rewrite ?Hl).
      destruct (forallb _ _) eqn:He; [|done].
      assert (is_scalar (VList l0) = true); [|done].
      apply (all_equal_scalar _ rest); cbn; by rewrite ?Hl.
  - (* mappings *)
    destruct (forallb is_dict rest) eqn:Hd.
    + rewrite deep_intersection_ne_dicts in * by done.
      rewrite remove_empty_structures_dict in *.
      assert (exists md : gmap key value, d = VDict md /\
                (d = VDict m0 \/ In d rest)) as (md & -> & Hwhere).
      { destruct Hin as [<-|Hin]; [eauto|].
        pose proof (proj1 (forallb_forall _ _) Hd _ Hin) as Hdd.
        destruct d as [| | | | |md]; try done. eauto. }
      apply contained_dict.
      intros k r' (r & [-> Hk]%pruned_child_Some & Hr)%lookup_omap_Some.
      rewrite map_lookup_imap in Hr.
      destruct (m0 !! k) as [v|] eqn:Hv; [|done]. cbn in Hr.
      destruct (forallb (has_key k) rest) eqn:Hall; [|done].
      injection Hr as <-.
      assert (deep_intersection_ne v (omap (dict_get k) rest) <> VNone) as Hn.
      { intros Hn. rewrite Hn in Hk. done. }
      assert (exists v', md !! k = Some v' /\
                         In v' (v :: omap (dict_get k) rest))
        as (v' & Hv' & Hin').
      { destruct Hwhere as [[= ->]|Hin']; [exists v; cbn; auto|].
        pose proof (proj1 (forallb_forall _ _) Hall _ Hin') as Hhas.
        cbn in Hhas. apply bool_decide_eq_true in Hhas as [v' Hv'].
        exists v'. split; [done|]. right.
        apply list_elem_of_In, list_elem_of_omap. exists (VDict md).
        split; [by apply list_elem_of_In|done]. }
      exists v'. split; [done|].
      apply contained_prune. by apply (IH k v Hv).
    + rewrite deep_intersection_ne_other in *
        by (cbn; by rewrite ?Hd, ?andb_false_r).
      destruct (forallb _ _) eqn:He; [|done].
      assert (is_scalar (VDict m0) = true); [|done].
      apply (all_equal_scalar _ rest); cbn; by rewrite ?Hd, ?andb_false_r.
Qed.

Lemma contained_mapping_path a b p w :
  contained a b ->
  get_mapping_path a p = Some w ->
  exists w', get_mapping_path b p = Some w' /\ contained w w'.
Proof.
  revert a b. induction p as [|k p IH]; intros a b Hc; cbn.
  - intros [= <-]. eauto.
  - destruct a as [| | | | |m]; try done.
    destruct (m !! k) as [c|] eqn:Hk; [|done]. cbn. intros Hw.
    inversion Hc as [? ? Hs|? m' Hm|]; subst; [done|].
    destruct (Hm _ _ Hk) as (c' & Hk' & Hcc). rewrite Hk'. cbn.
    by eapply IH.
Qed.

Lemma get_mapping_path_get_nested d p w :
  get_mapping_path d p = Some w -> get_nested d p = Ok w.
Proof.
  revert d. induction p as [|k p IH]; intros d; cbn; [by intros [= ->]|].
  destruct d as [| | | | |m]; try done.
  destruct (m !! k) as [c|] eqn:Hk; [|done]. cbn. rewrite Hk. by apply IH.
Qed.

End BaseContained.

(** C2, the claim as stated fails: elements that intersect to nothing
    are left out of a sequence and the following ones move up, so a path
    of the base need not lead to the same place in a document.  The base
    of [[1, 2]] and [[3, 2]] is [[2]]: at path [[0]] the base has 2 and
    the first document has 1.  The base of [[1, [5]]] and [[2, [5]]] is
    [[[5]]]: path [[0][0]] is in the base and in no document. *)
Lemma base_path_counterexample :
  get_nested (deep_intersection [VList [VInt 1; VInt 2]; VList [VInt 3; VInt 2]])
             [KInt 0] = Ok (VInt 2) /\
  get_nested (VList [VInt 1; VInt 2]) [KInt 0] = Ok (VInt 1) /\
  py_eq (VInt 1) (VInt 2) = false /\
  get_nested (deep_intersection [VList [VInt 1; VList [VInt 5]];
                                 VList [VInt 2; VList [VInt 5]]])
             [KInt 0; KInt 0] = Ok (VInt 5) /\
  get_nested (VList [VInt 1; VList [VInt 5]]) [KInt 0; KInt 0]
  = Raise TypeError /\
  get_nested (VList [VInt 2; VList [VInt 5]]) [KInt 0; KInt 0]
  = Raise TypeError.
Proof. repeat split; vm_compute; reflexivity. Qed.

(** C2, amended. For every list of documents whose deep intersection is
    not [None], the base is contained in every document: scalars of the
    base are equal to the document's, every mapping key of the base is a
    key of the document's mapping, and the elements of a sequence of the
    base are contained, in their order, in distinct elements of the
    document's sequence, possibly at higher indices.  In particular every
    path of the base that descends through mappings only exists in every
    document, where the value is equal to the base's when that is a
    scalar and contains the base's otherwise. *)
Theorem base_contained_in_documents :
  forall docs : list value,
    deep_intersection docs <> VNone ->
    forall d, In d docs ->
      contained (deep_intersection docs) d /\
      forall p w,
        get_mapping_path (deep_intersection docs) p = Some w ->
        exists w', get_nested d p = Ok w' /\ contained w w' /\
                   (is_scalar w = true -> py_eq w' w = true).
Proof.
  intros [|d0 rest] Hne d Hin; [done|]. cbn [deep_intersection] in *.
  pose proof (deep_intersection_ne_contained d0 rest Hne d Hin) as Hc.
  split; [done|]. intros p w Hw.
  destruct (contained_mapping_path _ _ _ _ Hc Hw) as (w' & Hw' & Hcw).
  exists w'. split; [by apply get_mapping_path_get_nested|].
  split; [done|]. intros Hs.
  inversion Hcw; subst; done.
Qed.

Lemma base_contained_in_documents_witness :
  contained
    (deep_intersection
       [VDict {[ KStr "a" := VDict {[ KStr "b" := VInt 1 ]};
                 KStr "l" := VList [VInt 1; VInt 2] ]};
        VDict {[ KStr "a" := VDict {[ KStr "b" := VInt 1; KStr "c" := VInt 2 ]};
                 KStr "l" := VList [VInt 3; VInt 2] ]}])
    (VDict {[ KStr "a" := VDict {[ KStr "b" := VInt 1; KStr "c" := VInt 2 ]};
              KStr "l" := VList [VInt 3; VInt 2] ]}).
Proof.
  apply (base_contained_in_documents
       [VDict {[ KStr "a" := VDict {[ KStr "b" := VInt 1 ]};
                 KStr "l" := VList [VInt 1; VInt 2] ]};
        VDict {[ KStr "a" := VDict {[ KStr "b" := VInt 1; KStr "c" := VInt 2 ]};
                 KStr "l" := VList [VInt 3; VInt 2] ]}]).
  - vm_compute. discriminate.
  - cbn. auto.
Defined.

(* ================================================================== *)
(** * Properties of create_overlay *)
(* ================================================================== *)

Section OverlayCovered.

#[local] Arguments set_nested : simpl never.
#[local] Arguments get_nested : simpl never.

Lemma covered_refl v : covered v v.
Proof.
  induction v as [|b0|z|s|l IH|m IH] using value_induction;
    try (by apply covered_other).
  apply covered_dict. intros k v Hk. exists v. split; [done|].
  by eapply IH.
Qed.

Lemma covered_empty f : covered (VDict ∅) f.
Proof. apply covered_dict. intros k v. by rewrite lookup_empty. Qed.

Lemma covered_new_container next f : covered (new_container next) f.
Proof. destruct next; [apply covered_empty|by apply covered_other]. Qed.

Lemma covered_lookup (m : gmap key value) f k v :
  covered (VDict m) f -> m !! k = Some v ->
  exists fv, dict_get k f = Some fv /\ covered v fv.
Proof. inversion 1; subst; [eauto|done]. Qed.

Lemma covered_insert (m : gmap key value) f k v fv :
  covered (VDict m) f -> dict_get k f = Some fv -> covered v fv ->
  covered (VDict (<[k := v]> m)) f.
Proof.
  intros Hm Hf Hv. apply covered_dict. intros k' v'.
  destruct (decide (k' = k)) as [->|Hne].
  - rewrite lookup_insert_eq. intros [= <-]. eauto.
  - rewrite lookup_insert_ne by done. by apply covered_lookup.
Qed.

Lemma dict_get_getitem f k fv : dict_get k f = Some fv -> getitem f k = Ok fv.
Proof. destruct f; try done. cbn. by intros ->. Qed.

(** In a mapping, or for a string step, a successful lookup is the
    lookup of a key. *)
Lemma getitem_dict_get f k fv :
  getitem f k = Ok fv ->
  is_dict f = true \/ (exists s, k = KStr s) ->
  dict_get k f = Some fv.
Proof.
  destruct f as [| | |s|l|m]; cbn; try done.
  - destruct k; [done|]. intros _ [?|[? ?]]; done.
  - destruct k; [done|]. intros _ [?|[? ?]]; done.
  - destruct (m !! k); [|done]. by intros [= ->].
Qed.

Lemma covered_nonempty_is_dict (m : gmap key value) f n :
  covered (VDict m) f -> n < size m -> is_dict f = true.
Proof.
  intros Hc Hn. destruct (map_choose m) as (k & v & Hk).
  { intros ->. rewrite map_size_empty in Hn. lia. }
  destruct (covered_lookup _ _ _ _ Hc Hk) as (fv & Hf & _).
  by destruct f.
Qed.

(** Writing a covered value at a path of [f] keeps the overlay covered. *)
Lemma covered_set_nested p : forall o f v fv o',
  covered o f ->
  get_nested f p = Ok fv ->
  covered v fv ->
  set_nested o p v = Ok o' ->
  covered o' f.
Proof.
  induction p as [|k p IH]; intros o f v fv o' Ho Hf Hv Hset; [done|].
  rewrite get_nested_cons in Hf.
  destruct (getitem f k) as [fc|] eqn:Hfc; [|done]. cbn in Hf.
  destruct p as [|next p].
  - injection Hf as ->. rewrite set_nested_last in Hset.
    destruct k as [s|n].
    + destruct o as [| | | | |m]; try done. injection Hset as <-.
      eapply covered_insert; [done| |done].
      apply getitem_dict_get; eauto.
    + destruct (append_until o n VNone) as [o1|] eqn:E; [|done].
      cbn in Hset.
      apply append_until_Ok in E as [(l & -> & ->)|(-> & [(m&->&Hn)|(s&->&_)])].
      * cbn in Hset. destruct (decide _); [|done]. injection Hset as <-.
        by apply covered_other.
      * injection Hset as <-. eapply covered_insert; [done| |done].
        apply getitem_dict_get; [done|]. left.
        by eapply covered_nonempty_is_dict.
      * done.
  - rewrite set_nested_step in Hset. destruct k as [s|n].
    + destruct o as [| | | | |m]; try done. cbn [setdefault] in Hset.
      assert (dict_get (KStr s) f = Some fc) as Hdg
          by (apply getitem_dict_get; eauto).
      destruct (m !! KStr s) as [c|] eqn:Hc; cbn in Hset.
      * destruct (set_nested c (next :: p) v) as [child'|] eqn:Hs; [|done].
        injection Hset as <-.
        destruct (covered_lookup _ _ _ _ Ho Hc) as (fv' & Hfv' & Hcc).
        assert (fv' = fc) as -> by congruence.
        eapply covered_insert; [done..|]. by eapply IH.
      * destruct (set_nested (new_container next) (next :: p) v)
          as [child'|] eqn:Hs; [|done].
        injection Hset as <-. rewrite insert_insert_eq.
        eapply covered_insert; [done..|].
        eapply IH; [apply covered_new_container|done..].
    + destruct (append_until o n _) as [o1|] eqn:E; [|done]. cbn in Hset.
      destruct (getitem o1 (KInt n)) as [c|] eqn:Hc; [|done]. cbn in Hset.
      destruct (set_nested c (next :: p) v) as [child'|] eqn:Hs; [|done].
      injection Hset as <-.
      apply append_until_Ok in E as [(l & -> & ->)|(-> & [(m&->&Hn)|(s&->&_)])].
      * by apply covered_other.
      * cbn in Hc. destruct (m !! KInt n) as [c'|] eqn:Hm; [|done].
        injection Hc as ->.
        destruct (covered_lookup _ _ _ _ Ho Hm) as (fv' & Hfv' & Hcc).
        assert (fv' = fc) as ->.
        { apply dict_get_getitem in Hfv'. congruence. }
        eapply covered_insert; [done..|]. by eapply IH.
      * by apply covered_other.
Qed.

(** Replacing what is found at a path by a sequence keeps the overlay
    covered. *)
Lemma covered_with_nested p : forall o f new,
  covered o f -> is_dict new = false -> covered (with_nested o p new) f.
Proof.
  induction p as [|k p IH]; intros o f new Ho Hnew; cbn.
  - by apply covered_other.
  - destruct (getitem o k) as [c|] eqn:Hc; [|done].
    destruct o as [| | |s|l|m]; try done.
    + cbn. destruct k; by apply covered_other.
    + cbn in Hc. destruct (m !! k) as [c'|] eqn:Hm; [|done].
      injection Hc as ->.
      destruct (covered_lookup _ _ _ _ Ho Hm) as (fv & Hfv & Hcc).
      eapply covered_insert; [done..|]. by apply IH.
Qed.

Lemma place_item_list l index v parent' :
  place_item (VList l) index v = Ok parent' -> is_dict parent' = false.
Proof.
  destruct index as [|n]; [done|]. cbn. destruct (decide _); [|done].
  by intros [= <-].
Qed.

Lemma get_nested_app d p1 p2 v :
  get_nested d (p1 ++ p2) = Ok v ->
  exists u, get_nested d p1 = Ok u /\ get_nested u p2 = Ok v.
Proof.
  revert d. induction p1 as [|k p1 IH]; intros d; [eauto|].
  cbn [app]. rewrite !get_nested_cons.
  destruct (getitem d k) as [c|]; [|done]. cbn. apply IH.
Qed.

Lemma covered_add_iterable_item o f p v o' :
  covered o f ->
  get_nested f p = Ok v ->
  add_iterable_item o p v = Ok o' ->
  covered o' f.
Proof.
  intros Ho Hf. unfold add_iterable_item.
  destruct p as [|k0 p0]; [done|]. set (p := k0 :: p0) in *.
  assert (p = removelast p ++ [List.last p (KInt 0)]) as Hp
      by (by apply app_removelast_last).
  clearbody p.
  rewrite Hp in Hf. apply get_nested_app in Hf as (fparent & Hfp & _).
  intros H.
  destruct (match removelast p with
            | [] => Ok o
            | _ :: _ => get_nested o (removelast p)
            end) as [parent|]; [|done].
  cbn in H. destruct (is_list parent) eqn:Hl.
  - destruct parent as [| | | |l|]; try done.
    destruct (place_item (VList l) _ v) as [parent'|] eqn:E;
      cbn in H; [|done].
    injection H as <-. apply covered_with_nested; [done|].
    by eapply place_item_list.
  - destruct (set_nested o (removelast p) (VList [])) as [o1|] eqn:Hs;
      cbn in H; [|done].
    destruct (place_item (VList []) _ v) as [parent'|] eqn:E;
      cbn in H; [|done].
    injection H as <-. apply covered_with_nested; [|by eapply place_item_list].
    eapply covered_set_nested; [done|done| |done]. by apply covered_other.
Qed.

Lemma covered_prune o : forall f, covered o f -> covered (remove_empty_structures o) f.
Proof.
  induction o as [|b0|z|s|l IH|m IH] using value_induction; intros f Ho;
    try (by apply covered_other).
  rewrite remove_empty_structures_dict. apply covered_dict.
  intros k r (v & [-> _]%pruned_child_Some & Hv)%lookup_omap_Some.
  destruct (covered_lookup _ _ _ _ Ho Hv) as (fv & Hfv & Hc).
  exists fv. split; [done|]. by eapply IH.
Qed.

(** An invariant of the loop body is an invariant of the loop. *)
Lemma for_each_invariant {A} (I : value -> Prop)
    (body : value -> A -> result value) items :
  (forall s item s', In item items -> I s -> body s item = Ok s' -> I s') ->
  forall s s', I s -> for_each body items s = Ok s' -> I s'.
Proof.
  induction items as [|item items IH]; intros Hbody s s' Hs; cbn.
  - by intros [= <-].
  - destruct (body s item) as [s1|] eqn:E; [|done]. cbn.
    apply IH; [|by eapply Hbody; [left| |]].
    intros ? ? ? ?. apply Hbody. by right.
Qed.

Lemma for_report_invariant {A} (I : value -> Prop) (entry : option (list A))
    (body : value -> A -> result value) :
  (forall items s item s',
      entry = Some items -> In item items -> I s -> body s item = Ok s' -> I s') ->
  forall s s', I s -> for_report entry body s = Ok s' -> I s'.
Proof.
  intros Hbody s s' Hs. destruct entry as [items|]; cbn.
  - apply for_each_invariant; [|done]. intros ? ? ?. by apply Hbody.
  - by intros [= <-].
Qed.

Lemma covered_mapping_path o f p w :
  covered o f ->
  get_mapping_path o p = Some w ->
  exists w', get_mapping_path f p = Some w'.
Proof.
  revert o f. induction p as [|k p IH]; intros o f Ho; cbn; [eauto|].
  destruct o as [| | | | |m]; try done.
  destruct (m !! k) as [c|] eqn:Hk; [|done]. cbn. intros Hw.
  destruct (covered_lookup _ _ _ _ Ho Hk) as (fv & Hfv & Hc).
  destruct f as [| | | | |fm]; try done. cbn in Hfv. rewrite Hfv. cbn.
  by eapply IH.
Qed.

End OverlayCovered.

(** C5, the claim as stated fails: the overlay is pruned, which moves the
    elements of a sequence down to lower indices.  With [base] =
    [{"a": {0: {"z": 5}}}] and [full] = [{"a": [{}, {"z": 1}]}], whose
    difference is a change of type at ['a'] carrying the value of [full]
    there, the overlay is [{"a": [{"z": 1}]}]: the path ['a'][0]['z'] is
    present in [base], absent from [full], and appears in the overlay. *)
Lemma overlay_path_counterexample :
  carries_values_of shifted_full shifted_report /\
  create_overlay (fun _ _ => shifted_report) shifted_base shifted_full
  = Ok (VDict {[ KStr "a" := VList [VDict {[ KStr "z" := VInt 1 ]}] ]}) /\
  get_nested (VDict {[ KStr "a" := VList [VDict {[ KStr "z" := VInt 1 ]}] ]})
             [KStr "a"; KInt 0; KStr "z"] = Ok (VInt 1) /\
  get_nested shifted_base [KStr "a"; KInt 0; KStr "z"] = Ok (VInt 5) /\
  get_nested shifted_full [KStr "a"; KInt 0; KStr "z"] = Raise KeyError.
Proof.
  split; [|repeat split; vm_compute; reflexivity].
  split; [|split]; intros items item c; cbn; try done.
  intros [= <-] [[= <- <-]|[]]. vm_compute. reflexivity.
Qed.

(** C5, amended. [create_overlay] never subtracts: what the diff reports
    as removed contributes nothing, the overlay is built from the
    added-entry, changed-value, added-element and type-changed reports
    alone.  When these reports carry paths and values of [full], every
    path that descends through mappings only and appears in the returned
    overlay is present in [full]; so no such path that is absent from
    [full], whether present in [base] or not, appears in the overlay.
    Paths through sequence indices are left out, because pruning the
    overlay compacts its sequences. *)
Theorem create_overlay_never_subtracts :
  forall (DeepDiff : value -> value -> DiffReport) (base full : value),
    (forall DeepDiff' : value -> value -> DiffReport,
        same_additions (DeepDiff base full) (DeepDiff' base full) ->
        create_overlay DeepDiff' base full = create_overlay DeepDiff base full) /\
    (carries_values_of full (DeepDiff base full) ->
     forall overlay,
       create_overlay DeepDiff base full = Ok overlay ->
       forall p w,
         get_mapping_path overlay p = Some w ->
         exists w', get_mapping_path full p = Some w' /\
                    get_nested full p = Ok w').
Proof.
  intros DeepDiff base full. split.
  - intros DeepDiff' (H1 & H2 & H3 & H4). unfold create_overlay.
    by rewrite H1, H2, H3, H4.
  - intros (Hvc & Hia & Htc) overlay Hov p w Hw.
    assert (covered overlay full) as Hc.
    { unfold create_overlay in Hov.
      destruct (for_report (dictionary_item_added _) _ _) as [o1|] eqn:E1;
        [|done].
      cbn [mbind result_bind] in Hov.
      destruct (for_report (values_changed _) _ o1) as [o2|] eqn:E2; [|done].
      cbn [mbind result_bind] in Hov.
      destruct (for_report (iterable_item_added _) _ o2) as [o3|] eqn:E3;
        [|done].
      cbn [mbind result_bind] in Hov.
      destruct (for_report (type_changes _) _ o3) as [o4|] eqn:E4; [|done].
      cbn [mbind result_bind] in Hov. injection Hov as <-.
      apply covered_prune.
      eapply (for_report_invariant (fun o => covered o full)); [|clear E4|exact E4].
      { intros items o [item c] o' Hi Hin Ho Hb.
        eapply covered_set_nested; [done|by eapply Htc|apply covered_refl|done]. }
      eapply (for_report_invariant (fun o => covered o full)); [|clear E3|exact E3].
      { intros items o [item v] o' Hi Hin Ho Hb.
        eapply covered_add_iterable_item; [done|by eapply Hia|done]. }
      eapply (for_report_invariant (fun o => covered o full)); [|clear E2|exact E2].
      { intros items o [item c] o' Hi Hin Ho Hb.
        eapply covered_set_nested; [done|by eapply Hvc|apply covered_refl|done]. }
      eapply (for_report_invariant (fun o => covered o full));
        [|apply covered_empty|exact E1].
      intros items o item o' Hi Hin Ho Hb. cbn beta in Hb.
      destruct (get_nested full (parse_path item)) as [v|] eqn:Hv; [|done].
      eapply covered_set_nested; [done|done|apply covered_refl|done]. }
    destruct (covered_mapping_path _ _ _ _ Hc Hw) as (w' & Hw').
    exists w'. split; [done|]. by apply get_mapping_path_get_nested.
Qed.

Lemma create_overlay_never_subtracts_witness :
  exists w',
    get_mapping_path (VDict {[ KStr "a" := VInt 5; KStr "c" := VInt 3 ]})
                     [KStr "c"] = Some w' /\
    get_nested (VDict {[ KStr "a" := VInt 5; KStr "c" := VInt 3 ]})
               [KStr "c"] = Ok w'.
Proof.
  refine (proj2 (create_overlay_never_subtracts
            (fun _ _ =>
               {| dictionary_item_added := Some ["root['c']"%string];
                  dictionary_item_removed := Some ["root['b']"%string];
                  values_changed :=
                    Some [("root['a']"%string,
                           {| old_value := VInt 1; new_value := VInt 5 |})];
                  iterable_item_added := None;
                  iterable_item_removed := None;
                  type_changes := None |})
            (VDict {[ KStr "a" := VInt 1; KStr "b" := VInt 2 ]})
            (VDict {[ KStr "a" := VInt 5; KStr "c" := VInt 3 ]}))
          _ (VDict {[ KStr "a" := VInt 5; KStr "c" := VInt 3 ]})
          _ [KStr "c"] (VInt 3) _).
  - split; [|split]; intros items item c; cbn; try done.
    intros [= <-] [[= <- <-]|[]]. vm_compute. reflexivity.
  - vm_compute. reflexivity.
  - vm_compute. reflexivity.
Defined.

(* ================================================================== *)
(** * Further properties of remove_empty_structures *)
(* ================================================================== *)

Section PrunedValues.

Lemma fully_pruned_dict (m : gmap key value) :
  fully_pruned (VDict m) = true <->
  map_Forall (fun _ x => not_in_empties x = true /\ fully_pruned x = true) m.
Proof.
  cbn [fully_pruned].
  apply (map_fold_weak_ind (fun b (m : gmap key value) =>
    b = true <->
    map_Forall (fun _ x => not_in_empties x = true /\ fully_pruned x = true) m)).
  - split; [intros _; apply map_Forall_empty|done].
  - intros k x m' r Hk IH. rewrite map_Forall_insert by done.
    rewrite !andb_true_iff, IH. tauto.
Qed.

Lemma fully_pruned_list l :
  fully_pruned (VList l) = true <->
  Forall (fun x => not_in_empties x = true /\ fully_pruned x = true) l.
Proof.
  cbn [fully_pruned]. rewrite forallb_forall, Forall_forall.
  split; intros H x Hx.
  - apply andb_true_iff, H. by apply list_elem_of_In.
  - apply andb_true_iff, H. by apply list_elem_of_In.
Qed.

Lemma py_eq_scalar_refl a : is_scalar a = true -> py_eq a a = true.
Proof. destruct a; try done; intros _; cbn; by apply bool_decide_eq_true. Qed.

Lemma pruned_child_scalar v :
  is_scalar v = true -> v <> VNone -> pruned_child v = Some v.
Proof.
  intros Hs Hn. apply pruned_child_Some. split; [by destruct v|].
  apply not_in_empties_true. by destruct v.
Qed.

Lemma embedded_refl l : Forall (fun x => contained x x) l -> embedded l l.
Proof. induction 1; constructor; done. Qed.

Lemma contained_refl v : contained v v.
Proof.
  induction v as [|b0|z|s|l IH|m IH] using value_induction;
    try (apply contained_scalar; [done|by apply py_eq_scalar_refl]).
  - apply contained_list. by apply embedded_refl.
  - apply contained_dict. intros k v Hk. exists v. split; [done|].
    by eapply IH.
Qed.

End PrunedValues.

Section PrunedFixedPoints.

Lemma pruned_is_fully_pruned x : fully_pruned (remove_empty_structures x) = true.
Proof.
  induction x as [|b0|z|s|l IH|m IH] using value_induction; try done.
  - rewrite remove_empty_structures_list. apply fully_pruned_list.
    induction IH as [|x l Hx _ IHl]; [constructor|].
    cbn [omap list_omap]. destruct (pruned_child x) as [r|] eqn:E; [|done].
    apply pruned_child_Some in E as [-> Hk]. by constructor.
  - rewrite remove_empty_structures_dict. apply fully_pruned_dict.
    intros k r (v & [-> Hk]%pruned_child_Some & Hv)%lookup_omap_Some.
    split; [done|]. by eapply IH.
Qed.

Lemma fully_pruned_fixed x :
  fully_pruned x = true -> remove_empty_structures x = x.
Proof.
  induction x as [|b0|z|s|l IH|m IH] using value_induction; try done.
  - intros Hl%fully_pruned_list. rewrite remove_empty_structures_list.
    f_equal. induction Hl as [|x l [Hk Hp] Hl IHl]; [done|].
    apply Forall_cons in IH as [Hx IH]. cbn [omap list_omap].
    assert (pruned_child x = Some x) as ->.
    { apply pruned_child_Some. by rewrite (Hx Hp). }
    by rewrite (IHl IH).
  - intros Hm%fully_pruned_dict. rewrite remove_empty_structures_dict.
    f_equal. apply map_eq. intros k. rewrite lookup_omap.
    destruct (m !! k) as [v|] eqn:Hv; [|done]. cbn.
    destruct (Hm _ _ Hv) as [Hk Hp].
    apply pruned_child_Some. by rewrite (IH _ _ Hv Hp).
Qed.

(** Pruning twice is pruning once, from the two lemmas above. *)
Lemma prune_pruned x :
  remove_empty_structures (remove_empty_structures x)
  = remove_empty_structures x.
Proof. apply fully_pruned_fixed, pruned_is_fully_pruned. Qed.

End PrunedFixedPoints.

(** X1. Whatever it is applied to, [remove_empty_structures] returns a
    value that has no empty mapping, no empty sequence and no [None]
    anywhere below its top. *)
Theorem remove_empty_structures_fully_pruned :
  forall x : value, fully_pruned (remove_empty_structures x) = true.
Proof.
  intros x. induction x as [|b0|z|s|l IH|m IH] using value_induction;
    try done.
  - rewrite remove_empty_structures_list. apply fully_pruned_list.
    apply Forall_forall. intros r Hin.
    apply list_elem_of_omap in Hin as (x & Hx & Hr).
    apply pruned_child_Some in Hr as [-> Hk]. split; [done|].
    by apply (proj1 (Forall_forall _ _) IH).
  - rewrite remove_empty_structures_dict. apply fully_pruned_dict.
    intros k r (v & [-> Hk]%pruned_child_Some & Hv)%lookup_omap_Some.
    split; [done|]. by apply (IH k v).
Qed.

(** X2. The values that pruning leaves as they are are exactly those
    with nothing to prune below the top: [remove_empty_structures x = x]
    if and only if [x] has no empty container and no [None] inside. *)
Theorem remove_empty_structures_fixed_points :
  forall x : value,
    remove_empty_structures x = x <-> fully_pruned x = true.
Proof.
  intros x. split.
  - intros <-. apply pruned_is_fully_pruned.
  - apply fully_pruned_fixed.
Qed.

(** X3. Pruning drops only [{}], [[]] and [None]: a scalar other than
    [None], also a falsy one such as [0], [False] or the empty string,
    stays in the mapping or the sequence that holds it. *)
Theorem remove_empty_structures_keeps_scalars :
  forall v : value,
    is_scalar v = true -> v <> VNone ->
    (forall (m : gmap key value) k,
        m !! k = Some v ->
        dict_get k (remove_empty_structures (VDict m)) = Some v) /\
    (forall l, In v l ->
        exists l', remove_empty_structures (VList l) = VList l' /\ In v l').
Proof.
  intros v Hs Hn. pose proof (pruned_child_scalar v Hs Hn) as Hv. split.
  - intros m k Hk. rewrite remove_empty_structures_dict. cbn.
    by rewrite lookup_omap, Hk.
  - intros l Hin. rewrite remove_empty_structures_list. eexists.
    split; [done|]. apply list_elem_of_In, list_elem_of_omap.
    exists v. split; [by apply list_elem_of_In|done].
Qed.

Lemma remove_empty_structures_keeps_scalars_witness :
  dict_get (KStr "n")
    (remove_empty_structures
       (VDict {[ KStr "n" := VInt 0; KStr "e" := VDict ∅ ]}))
  = Some (VInt 0).
Proof.
  apply (remove_empty_structures_keeps_scalars (VInt 0)); [done|done|].
  vm_compute. reflexivity.
Defined.

(** X4. Pruning adds nothing: the pruned value is contained in the
    original, key by key for mappings and in order for sequences. *)
Theorem remove_empty_structures_contained :
  forall x : value, contained (remove_empty_structures x) x.
Proof.
  intros x. apply contained_prune, contained_refl.
Qed.

(* ================================================================== *)
(** * Further properties of deep_intersection *)
(* ================================================================== *)

Section IntersectionShape.







Lemma py_eq_dict_l (m : gmap key value) d :
  py_eq (VDict m) d = true -> is_dict d = true.
Proof. by destruct d. Qed.

Lemma py_eq_list_l l d : py_eq (VList l) d = true -> is_list d = true.
Proof. by destruct d. Qed.

(** Two values of which one only is a mapping, or one only a sequence,
    are not both equal to a third. *)
Lemma not_all_equal d0 d d' rest :
  In d (d0 :: rest) -> In d' (d0 :: rest) ->
  (is_dict d = true /\ is_dict d' = false) \/
  (is_list d = true /\ is_list d' = false) ->
  forallb (fun x => py_eq x d0) (d0 :: rest) = false.
Proof.
  intros Hd Hd' Hk. apply not_true_is_false. intros Hall.
  pose proof (proj1 (forallb_forall _ _) Hall) as Heq.
  pose proof (Heq _ Hd) as E. pose proof (Heq _ Hd') as E'.
  destruct Hk as [[H H']|[H H']].
  - destruct d as [| | | | |m]; try done.
    apply py_eq_dict_l in E. destruct d0 as [| | | | |m0]; try done.
    apply py_eq_dict_r in E'. congruence.
  - destruct d as [| | | |l|]; try done.
    apply py_eq_list_l in E. destruct d0 as [| | | |l0|]; try done.
    apply py_eq_list_r in E'. congruence.
Qed.

Lemma forallb_false_In {A} (f : A -> bool) l x :
  In x l -> f x = false -> forallb f l = false.
Proof.
  intros Hin Hf. apply not_true_is_false. intros H.
  rewrite forallb_forall in H. rewrite (H _ Hin) in Hf. done.
Qed.

Lemma zip_intersections_fully_pruned l0 :
  Forall (fun x => forall rest,
            fully_pruned (deep_intersection_ne x rest) = true) l0 ->
  forall ls,
    Forall (fun x => not_in_empties x = true /\ fully_pruned x = true)
           (zip_intersections l0 ls).
Proof.
  induction 1 as [|x t Hx _ IH]; intros ls; [constructor|].
  cbn [zip_intersections].
  destruct (heads_tails ls) as [[items ts]|]; [|constructor].
  destruct (not_in_empties (deep_intersection_ne x items)) eqn:E; cbn [app].
  - constructor; [by split|apply IH].
  - apply IH.
Qed.

Lemma deep_intersection_ne_fully_pruned d0 :
  forall rest, fully_pruned (deep_intersection_ne d0 rest) = true.
Proof.
  induction d0 as [|b0|z|s|l0 IH|m0 IH] using value_induction; intros rest.
  1-4: rewrite deep_intersection_ne_other by done;
       by destruct (forallb (fun d => py_eq d _) _).
  - destruct (forallb is_list rest) eqn:Hl.
    + rewrite deep_intersection_ne_lists by done.
      pose proof (zip_intersections_fully_pruned l0 IH (omap list_items rest))
        as Hz.
      destruct (zip_intersections l0 (omap list_items rest)) eqn:Ez; [done|].
      cbn [list_or_None]. by apply fully_pruned_list.
    + rewrite deep_intersection_ne_other by (cbn; by rewrite ?Hl).
      destruct (forallb (fun d => py_eq d _) _) eqn:He; [|done].
      assert (is_scalar (VList l0) = true); [|done].
      apply (all_equal_scalar _ rest); cbn; by rewrite ?Hl.
  - destruct (forallb is_dict rest) eqn:Hd.
    + rewrite deep_intersection_ne_dicts by done.
      apply pruned_is_fully_pruned.
    + rewrite deep_intersection_ne_other
        by (cbn; by rewrite ?Hd, ?andb_false_r).
      destruct (forallb (fun d => py_eq d _) _) eqn:He; [|done].
      assert (is_scalar (VDict m0) = true); [|done].
      apply (all_equal_scalar _ rest); cbn; by rewrite ?Hd, ?andb_false_r.
Qed.

Lemma deep_intersection_ne_not_empty_list d0 rest :
  deep_intersection_ne d0 rest <> VList [].
Proof.
  destruct (forallb is_dict (d0 :: rest)) eqn:Hd.
  - destruct d0 as [| | | | |m0]; try done.
    rewrite deep_intersection_ne_dicts by done. done.
  - destruct (forallb is_list (d0 :: rest)) eqn:Hl.
    + destruct d0 as [| | | |l0|]; try done.
      rewrite deep_intersection_ne_lists by done.
      by destruct (zip_intersections _ _).
    + rewrite deep_intersection_ne_other by done.
      destruct (forallb (fun d => py_eq d _) _) eqn:He; [|done].
      pose proof (all_equal_scalar _ _ Hd Hl He). by destruct d0.
Qed.

End IntersectionShape.


(** X6. Documents of different kinds have no common base: when one
    document is a mapping and another is not, or one is a sequence and
    another is not, [deep_intersection] returns [None]. *)
Theorem deep_intersection_mixed_is_None :
  forall (docs : list value) (d d' : value),
    In d docs -> In d' docs ->
    (is_dict d = true /\ is_dict d' = false) \/
    (is_list d = true /\ is_list d' = false) ->
    deep_intersection docs = VNone.
Proof.
  intros [|d0 rest] d d' Hd Hd' Hk; [done|]. cbn [deep_intersection].
  rewrite deep_intersection_ne_other.
  - by rewrite (not_all_equal d0 d d' rest).
  - destruct Hk as [[H H']|[H H']].
    + by apply (forallb_false_In _ _ d').
    + apply (forallb_false_In _ _ d); [done|]. by destruct d.
  - destruct Hk as [[H H']|[H H']].
    + apply (forallb_false_In _ _ d); [done|]. by destruct d.
    + by apply (forallb_false_In _ _ d').
Qed.

Lemma deep_intersection_mixed_is_None_witness :
  deep_intersection
    [VDict {[ KStr "a" := VInt 1 ]}; VInt 1; VDict {[ KStr "a" := VInt 1 ]}]
  = VNone.
Proof.
  apply (deep_intersection_mixed_is_None _
           (VDict {[ KStr "a" := VInt 1 ]}) (VInt 1)).
  - cbn. auto.
  - cbn. auto.
  - left. split; reflexivity.
Defined.

(** X7. The base is already pruned: the result of [deep_intersection]
    has no empty container and no [None] below its top and is never the
    empty sequence, so that pruning it again, as [main] does before it
    saves it, changes nothing. *)
Theorem deep_intersection_is_pruned :
  forall docs : list value,
    fully_pruned (deep_intersection docs) = true /\
    deep_intersection docs <> VList [] /\
    remove_empty_structures (deep_intersection docs) = deep_intersection docs.
Proof.
  intros docs.
  assert (fully_pruned (deep_intersection docs) = true) as Hp.
  { destruct docs as [|d0 rest]; [done|].
    apply deep_intersection_ne_fully_pruned. }
  split; [done|]. split; [|by apply fully_pruned_fixed].
  destruct docs as [|d0 rest]; [done|].
  apply deep_intersection_ne_not_empty_list.
Qed.

(* ================================================================== *)
(** * Further properties of get_nested and set_nested *)
(* ================================================================== *)

Section WritingTwice.

#[local] Arguments set_nested : simpl never.
#[local] Arguments get_nested : simpl never.

Lemma append_until_long l n placeholder :
  n < length l -> append_until (VList l) n placeholder = Ok (VList l).
Proof.
  intros H. cbn. replace (S n - length l) with 0 by lia.
  by rewrite app_nil_r.
Qed.

Lemma append_until_big_dict (m : gmap key value) n placeholder :
  n < size m -> append_until (VDict m) n placeholder = Ok (VDict m).
Proof. intros H. cbn. destruct (decide _); [lia|done]. Qed.

Lemma size_insert_ge (m : gmap key value) k v : size m <= size (<[k := v]> m).
Proof.
  destruct (m !! k) eqn:E.
  - by rewrite map_size_insert_Some.
  - rewrite map_size_insert_None by done. lia.
Qed.

Lemma setitem_list l n v :
  n < length l -> setitem (VList l) (KInt n) v = Ok (VList (<[n := v]> l)).
Proof. intros H. cbn. by destruct (decide _). Qed.

(** X9. The last write wins, and whether a write completes does not
    depend on the value written: when [set_nested d path v1] completes,
    [set_nested d path v2] completes too, and writing [v2] after [v1]
    leaves the document that writing [v2] alone would leave. *)
Theorem set_nested_last_write_wins :
  forall (d : value) (p : list key) (v1 d1 v2 : value),
    set_nested d p v1 = Ok d1 ->
    exists d2, set_nested d p v2 = Ok d2 /\ set_nested d1 p v2 = Ok d2.
Proof.
  intros d p. revert d.
  induction p as [|k p IH]; intros d v1 d1 v2 H1; [done|].
  destruct p as [|next p].
  - rewrite !set_nested_last in *. destruct k as [s|n].
    + destruct d as [| | | | |m]; try done. injection H1 as <-.
      eexists. split; [done|]. cbn. by rewrite insert_insert_eq.
    + destruct (append_until d n VNone) as [dd|] eqn:E; [|done].
      cbn in H1.
      apply append_until_Ok in E as [(l & -> & ->)|(-> & [(m&->&Hn)|(s&->&_)])].
      * set (l' := l ++ replicate (S n - length l) VNone) in *.
        assert (n < length l') as Hlen.
        { unfold l'. rewrite length_app, length_replicate. lia. }
        rewrite setitem_list in H1 by done. injection H1 as <-.
        exists (VList (<[n := v2]> l')). split.
        -- cbn [append_until mbind result_bind]. fold l'.
           by rewrite setitem_list.
        -- rewrite append_until_long by (by rewrite length_insert).
           cbn [mbind result_bind].
           rewrite setitem_list by (by rewrite length_insert).
           by rewrite list_insert_insert_eq.
      * injection H1 as <-. exists (VDict (<[KInt n := v2]> m)). split.
        -- done.
        -- rewrite append_until_big_dict
             by (pose proof (size_insert_ge m (KInt n) v1); lia).
           cbn. by rewrite insert_insert_eq.
      * done.
  - rewrite !set_nested_step in *. destruct k as [s|n].
    + destruct d as [| | | | |m]; try done. cbn [setdefault] in *.
      destruct (m !! KStr s) as [c|] eqn:Hc; cbn in H1 |- *.
      * destruct (set_nested c (next :: p) v1) as [c1|] eqn:Hs; [|done].
        injection H1 as <-.
        destruct (IH _ _ _ v2 Hs) as (c2 & Hd & Ha). rewrite Hd. cbn.
        eexists. split; [done|]. rewrite lookup_insert_eq. cbn.
        rewrite Ha. cbn. by rewrite insert_insert_eq.
      * destruct (set_nested (new_container next) (next :: p) v1)
          as [c1|] eqn:Hs; [|done].
        injection H1 as <-.
        destruct (IH _ _ _ v2 Hs) as (c2 & Hd & Ha). rewrite Hd. cbn.
        eexists. split; [done|]. rewrite lookup_insert_eq. cbn.
        rewrite Ha. cbn. by rewrite !insert_insert_eq.
    + destruct (append_until d n (new_container next)) as [dd|] eqn:E;
        [|done].
      cbn in H1.
      destruct (getitem dd (KInt n)) as [c|] eqn:Hc; [|done]. cbn in H1.
      destruct (set_nested c (next :: p) v1) as [c1|] eqn:Hs; [|done].
      injection H1 as <-.
      destruct (IH _ _ _ v2 Hs) as (c2 & Hd & Ha).
      apply append_until_Ok in E as [(l & -> & E)|(-> & [(m&->&Hn)|(s&->&_)])].
      * set (l' := l ++ replicate (S n - length l) (new_container next)) in *.
        subst dd. cbn in Hc. destruct (l' !! n) as [c'|] eqn:Hl; [|done].
        injection Hc as ->. pose proof (lookup_lt_Some _ _ _ Hl) as Hlen.
        exists (VList (<[n := c2]> l')). split.
        -- cbn -[replicate]. fold l'. rewrite Hl. cbn. by rewrite Hd.
        -- cbn [with_child].
           rewrite append_until_long by (by rewrite length_insert). cbn.
           rewrite list_lookup_insert_eq by done. cbn. rewrite Ha. cbn.
           by rewrite list_insert_insert_eq.
      * cbn in Hc. destruct (m !! KInt n) as [c'|] eqn:Hm; [|done].
        injection Hc as ->. exists (VDict (<[KInt n := c2]> m)). split.
        -- cbn. rewrite Hm. cbn. by rewrite Hd.
        -- cbn [with_child]. rewrite append_until_big_dict
             by (pose proof (size_insert_ge m (KInt n) c1); lia).
           cbn. rewrite lookup_insert_eq. cbn. rewrite Ha. cbn.
           by rewrite insert_insert_eq.
      * cbn in Hc. destruct (String.get n s) as [ch|]; [|done].
        injection Hc as <-. by apply set_nested_string in Hs.
Qed.

Lemma set_nested_new_container p : forall k v,
  exists d', set_nested (new_container k) (k :: p) v = Ok d'.
Proof.
  induction p as [|next p IH]; intros k v.
  - rewrite set_nested_last. destruct k as [s|n]; cbn; [eauto|].
    destruct (decide _) as [|Hn]; [eauto|].
    destruct Hn. rewrite length_replicate. lia.
  - rewrite set_nested_step. destruct (IH next v) as (c' & Hc).
    destruct k as [s|n]; cbn -[replicate].
    + rewrite lookup_empty. cbn. rewrite Hc. cbn. eauto.
    + rewrite lookup_replicate_2 by lia. cbn. rewrite Hc. cbn. eauto.
Qed.

End WritingTwice.

(** X8. Reading along a concatenated path is reading along the first
    part and then, from the value found, along the second; an exception
    of the first part is the exception of the whole. *)
Theorem get_nested_concat :
  forall (d : value) (p q : list key),
    get_nested d (p ++ q) = d' ← get_nested d p; get_nested d' q.
Proof.
  intros d p q. revert d. induction p as [|k p IH]; intros d; [done|].
  cbn [app]. rewrite !get_nested_cons.
  destruct (getitem d k) as [c|e]; [|done]. cbn. apply IH.
Qed.

Lemma set_nested_last_write_wins_witness :
  exists d2,
    set_nested (VDict ∅) [KStr "l"; KInt 1] (VInt 2) = Ok d2 /\
    set_nested (VDict {[ KStr "l" := VList [VNone; VInt 1] ]})
               [KStr "l"; KInt 1] (VInt 2) = Ok d2.
Proof.
  apply (set_nested_last_write_wins (VDict ∅) [KStr "l"; KInt 1] (VInt 1)).
  vm_compute. reflexivity.
Defined.

(** X10. On the empty mapping that an overlay starts from, [set_nested]
    completes exactly for the paths that begin with a string key, however
    long they are: an empty path raises [IndexError], and a path that
    begins with an index raises [AttributeError], a mapping having no
    [append]. *)
Theorem set_nested_on_empty_dict :
  forall (p : list key) (v : value),
    match p with
    | [] => set_nested (VDict ∅) p v = Raise IndexError
    | KInt _ :: _ => set_nested (VDict ∅) p v = Raise AttributeError
    | KStr _ :: _ => exists d', set_nested (VDict ∅) p v = Ok d'
    end.
Proof.
  intros [|[s|n] p] v.
  - done.
  - apply (set_nested_new_container p (KStr s)).
  - by destruct p.
Qed.

(* ================================================================== *)
(** * Further properties of create_overlay *)
(* ================================================================== *)

Section OverlayShape.

#[local] Arguments set_nested : simpl never.
#[local] Arguments get_nested : simpl never.

Lemma removelast_snoc {A} (l : list A) a : removelast (l ++ [a]) = l.
Proof.
  induction l as [|x l IH]; [done|]. cbn [app removelast].
  rewrite IH. by destruct l.
Qed.

Lemma last_snoc {A} (l : list A) a d : List.last (l ++ [a]) d = a.
Proof.
  induction l as [|x l IH]; [done|]. cbn [app List.last].
  rewrite IH. by destruct l.
Qed.

Lemma snoc_cases {A} (p : list A) : p = [] \/ exists pp k, p = pp ++ [k].
Proof.
  induction p as [|x p IH] using rev_ind; [by left|]. right. eauto.
Qed.

Lemma add_iterable_item_snoc o pp k v :
  add_iterable_item o (pp ++ [k]) v =
  parent ← match pp with [] => Ok o | _ => get_nested o pp end;
  if is_list parent then
    parent' ← place_item parent k v;
    Ok (with_nested o pp parent')
  else
    overlay1 ← set_nested o pp (VList []);
    parent' ← place_item (VList []) k v;
    Ok (with_nested overlay1 pp parent').
Proof.
  unfold add_iterable_item. rewrite removelast_snoc, last_snoc.
  by destruct pp.
Qed.

(** On the empty overlay every added element fails. *)
Lemma add_iterable_item_empty_overlay p v :
  exists e, add_iterable_item (VDict ∅) p v = Raise e /\
            is_LookupError e = true.
Proof.
  destruct (snoc_cases p) as [->|(pp & k & ->)].
  - exists IndexError. done.
  - rewrite add_iterable_item_snoc. destruct pp as [|k0 pp].
    + exists IndexError. done.
    + rewrite get_nested_cons. exists KeyError. done.
Qed.

Lemma set_nested_dict_root d p v d' :
  set_nested d p v = Ok d' -> is_dict d = true -> is_dict d' = true.
Proof.
  destruct p as [|k p]; [done|].
  intros [G _]%set_nested_root Hd. destruct d; try done.
  by destruct G as (m' & -> & _).
Qed.

Lemma with_nested_dict_root d p new :
  is_dict d = true -> p <> [] -> is_dict (with_nested d p new) = true.
Proof.
  destruct p as [|k p]; [done|]. intros Hd _. cbn.
  destruct d as [| | | | |m]; try done. by destruct (getitem _ _).
Qed.

Lemma add_iterable_item_dict_root o p v o' :
  add_iterable_item o p v = Ok o' -> is_dict o = true -> is_dict o' = true.
Proof.
  destruct (snoc_cases p) as [->|(pp & k & ->)].
  - done.
  - rewrite add_iterable_item_snoc. intros H Hd.
    destruct pp as [|k0 pp].
    + cbn in H. destruct o; try done.
    + destruct (get_nested o (k0 :: pp)) as [parent|]; [|done]. cbn in H.
      destruct (is_list parent).
      * destruct (place_item parent k v) as [parent'|]; [|done].
        injection H as <-. by apply (with_nested_dict_root o (k0 :: pp)).
      * destruct (set_nested o (k0 :: pp) (VList [])) as [o1|] eqn:Hs;
          [|done].
        cbn in H. destruct (place_item (VList []) k v) as [parent'|];
          [|done].
        injection H as <-.
        apply (with_nested_dict_root o1 (k0 :: pp)); [|done].
        by eapply set_nested_dict_root.
Qed.

(** What [create_overlay] returns is the pruning of a mapping. *)
Lemma create_overlay_Ok DeepDiff base full overlay :
  create_overlay DeepDiff base full = Ok overlay ->
  exists o, is_dict o = true /\ overlay = remove_empty_structures o.
Proof.
  unfold create_overlay. intros Hov.
  destruct (for_report (dictionary_item_added _) _ _) as [o1|] eqn:E1;
    [|done].
  cbn [mbind result_bind] in Hov.
  destruct (for_report (values_changed _) _ o1) as [o2|] eqn:E2; [|done].
  cbn [mbind result_bind] in Hov.
  destruct (for_report (iterable_item_added _) _ o2) as [o3|] eqn:E3;
    [|done].
  cbn [mbind result_bind] in Hov.
  destruct (for_report (type_changes _) _ o3) as [o4|] eqn:E4; [|done].
  cbn [mbind result_bind] in Hov. injection Hov as <-.
  exists o4. split; [|done].
  eapply (for_report_invariant (fun o => is_dict o = true)); [|clear E4|exact E4].
  { intros items o [item c] o' _ _ Ho Hb. by eapply set_nested_dict_root. }
  eapply (for_report_invariant (fun o => is_dict o = true)); [|clear E3|exact E3].
  { intros items o [item v] o' _ _ Ho Hb.
    by eapply add_iterable_item_dict_root. }
  eapply (for_report_invariant (fun o => is_dict o = true)); [|clear E2|exact E2].
  { intros items o [item c] o' _ _ Ho Hb. by eapply set_nested_dict_root. }
  eapply (for_report_invariant (fun o => is_dict o = true));
    [| |exact E1]; [|reflexivity].
  intros items o item o' _ _ Ho Hb. cbn beta in Hb.
  destruct (get_nested full (parse_path item)) as [v|]; [|done].
  by eapply set_nested_dict_root.
Qed.

End OverlayShape.

(** X11. An added sequence element never creates its parent: when the
    path to the parent cannot be read in the overlay, the loop body of
    [iterable_item_added] raises the exception of that lookup, and for an
    element at the top of the document it raises [IndexError] unless the
    overlay is a sequence. *)
Theorem add_iterable_item_needs_parent :
  forall (o : value) (pp : list key) (k : key) (v : value),
    (forall e, pp <> [] -> get_nested o pp = Raise e ->
               add_iterable_item o (pp ++ [k]) v = Raise e) /\
    (pp = [] -> is_list o = false ->
     add_iterable_item o (pp ++ [k]) v = Raise IndexError).
Proof.
  intros o pp k v. split.
  - intros e Hpp He. rewrite add_iterable_item_snoc.
    destruct pp; [done|]. by rewrite He.
  - intros -> Hl. rewrite add_iterable_item_snoc. cbn. by rewrite Hl.
Qed.

Lemma add_iterable_item_needs_parent_witness :
  add_iterable_item (VDict ∅) ([KStr "l"] ++ [KInt 0]) (VInt 1)
  = Raise KeyError.
Proof.
  apply (add_iterable_item_needs_parent (VDict ∅) [KStr "l"] (KInt 0) (VInt 1)).
  - discriminate.
  - reflexivity.
Defined.

(** X12. An overlay cannot begin with an added sequence element: when
    the diff reports no added mapping entry and no changed value but at
    least one added element, [create_overlay] raises a [LookupError]. *)
Theorem create_overlay_element_first_raises :
  forall (DeepDiff : value -> value -> DiffReport) (base full : value)
         (entry : string * value) (entries : list (string * value)),
    (dictionary_item_added (DeepDiff base full) = None \/
     dictionary_item_added (DeepDiff base full) = Some []) ->
    (values_changed (DeepDiff base full) = None \/
     values_changed (DeepDiff base full) = Some []) ->
    iterable_item_added (DeepDiff base full) = Some (entry :: entries) ->
    exists e, create_overlay DeepDiff base full = Raise e /\
              is_LookupError e = true.
Proof.
  intros DeepDiff base full [item v] entries Hd Hv Hi.
  unfold create_overlay.
  destruct (add_iterable_item_empty_overlay (parse_path item) v)
    as (e & He & Hl).
  exists e. split; [|done].
  destruct Hd as [-> | ->]; destruct Hv as [-> | ->]; rewrite Hi; cbn;
    by rewrite He.
Qed.

Lemma create_overlay_element_first_raises_witness :
  exists e,
    create_overlay
      (fun _ _ =>
         {| dictionary_item_added := None;
            dictionary_item_removed := None;
            values_changed := None;
            iterable_item_added := Some [("root['l'][2]"%string, VInt 4)];
            iterable_item_removed := None;
            type_changes := None |})
      (VDict {[ KStr "l" := VList [VInt 1; VInt 2] ]})
      (VDict {[ KStr "l" := VList [VInt 1; VInt 2; VInt 4] ]})
    = Raise e /\ is_LookupError e = true.
Proof.
  apply (create_overlay_element_first_raises _ _ _
           ("root['l'][2]"%string, VInt 4) []).
  - left. reflexivity.
  - left. reflexivity.
  - reflexivity.
Defined.

(** X13. When [create_overlay] returns, it returns a mapping, possibly
    empty, that has no empty container and no [None] inside, and that
    pruning leaves as it is. *)
Theorem create_overlay_returns_pruned_mapping :
  forall (DeepDiff : value -> value -> DiffReport)
         (base full overlay : value),
    create_overlay DeepDiff base full = Ok overlay ->
    is_dict overlay = true /\
    fully_pruned overlay = true /\
    remove_empty_structures overlay = overlay.
Proof.
  intros DeepDiff base full overlay (o & Hd & ->)%create_overlay_Ok.
  split; [by destruct o|]. split; [apply pruned_is_fully_pruned|].
  apply prune_pruned.
Qed.

Lemma create_overlay_returns_pruned_mapping_witness :
  is_dict (VDict {[ KStr "c" := VInt 3 ]}) = true /\
  fully_pruned (VDict {[ KStr "c" := VInt 3 ]}) = true /\
  remove_empty_structures (VDict {[ KStr "c" := VInt 3 ]})
  = VDict {[ KStr "c" := VInt 3 ]}.
Proof.
  apply (create_overlay_returns_pruned_mapping
           (fun _ _ =>
              {| dictionary_item_added := Some ["root['c']"%string];
                 dictionary_item_removed := None;
                 values_changed := None;
                 iterable_item_added := None;
                 iterable_item_removed := None;
                 type_changes := None |})
           (VDict {[ KStr "a" := VInt 1 ]})
           (VDict {[ KStr "a" := VInt 1; KStr "c" := VInt 3 ]})).
  vm_compute. reflexivity.
Defined.

(* ================================================================== *)
(** * Further properties of generate_base_and_overlays and main *)
(* ================================================================== *)

Section Orchestration.

Context (DeepDiff : value -> value -> DiffReport)
        (read_yaml : string -> value).

Lemma map_result_Ok {A B} (f : A -> result B) xs ys :
  map_result f xs = Ok ys -> Forall2 (fun x y => f x = Ok y) xs ys.
Proof.
  revert ys. induction xs as [|x xs IH]; intros ys; cbn.
  - intros [= <-]. constructor.
  - destruct (f x) as [y|] eqn:E; [|done]. cbn.
    destruct (map_result f xs) as [ys'|]; [|done]. cbn.
    intros [= <-]. constructor; [done|by apply IH].
Qed.

Lemma existsb_None_In docs :
  existsb (fun d => py_eq VNone d) docs = true <-> In VNone docs.
Proof.
  rewrite existsb_exists. split.
  - intros (d & Hin & Hd). by destruct d.
  - intros Hin. by exists VNone.
Qed.

Lemma generate_base_and_overlays_Ok file_list base overlays :
  generate_base_and_overlays DeepDiff read_yaml file_list
  = Ok (base, overlays) ->
  (In VNone (map read_yaml file_list) /\ base = VNone /\ overlays = []) \/
  (~ In VNone (map read_yaml file_list) /\
   base = deep_intersection (map read_yaml file_list) /\
   Forall2 (fun d overlay => create_overlay DeepDiff base d = Ok overlay)
           (map read_yaml file_list) overlays).
Proof.
  unfold generate_base_and_overlays.
  destruct (existsb _ _) eqn:E.
  - intros [= <- <-]. left. by apply existsb_None_In in E.
  - destruct (map_result _ _) as [os|] eqn:Hm; [|done]. cbn.
    intros [= <- <-]. right. split.
    + intros Hin%existsb_None_In. congruence.
    + split; [done|]. by apply map_result_Ok.
Qed.

End Orchestration.

(** X14. What [generate_base_and_overlays] returns: either some file
    did not load and the result is [(None, [])], or every file loaded,
    the base is the deep intersection of the documents, and there is one
    overlay for each document, in the order of the files, each being what
    [create_overlay] returns for the base and that document. *)
Theorem generate_base_and_overlays_result :
  forall (DeepDiff : value -> value -> DiffReport)
         (read_yaml : string -> value) (file_list : list string)
         (base : value) (overlays : list value),
    generate_base_and_overlays DeepDiff read_yaml file_list
    = Ok (base, overlays) ->
    (In VNone (map read_yaml file_list) /\ base = VNone /\ overlays = []) \/
    (~ In VNone (map read_yaml file_list) /\
     base = deep_intersection (map read_yaml file_list) /\
     length overlays = length file_list /\
     Forall2 (fun d overlay => create_overlay DeepDiff base d = Ok overlay)
             (map read_yaml file_list) overlays).
Proof.
  intros DeepDiff read_yaml file_list base overlays H.
  apply generate_base_and_overlays_Ok in H as [H|(Hn & Hb & Hf)];
    [by left|right].
  do 2 (split; [done|]). split; [|done].
  apply Forall2_length in Hf. by rewrite length_map in Hf.
Qed.

Lemma generate_base_and_overlays_result_witness :
  (In VNone (map (fun _ : string => VDict {[ KStr "a" := VInt 1 ]}) ["f.yaml"%string])
   /\ VDict {[ KStr "a" := VInt 1 ]} = VNone /\ [VDict ∅] = []) \/
  (~ In VNone (map (fun _ : string => VDict {[ KStr "a" := VInt 1 ]}) ["f.yaml"%string]) /\
   VDict {[ KStr "a" := VInt 1 ]}
   = deep_intersection
       (map (fun _ : string => VDict {[ KStr "a" := VInt 1 ]}) ["f.yaml"%string]) /\
   length [VDict ∅] = length ["f.yaml"%string] /\
   Forall2 (fun d overlay =>
              create_overlay
                (fun _ _ => Build_DiffReport None None None None None None)
                (VDict {[ KStr "a" := VInt 1 ]}) d = Ok overlay)
           (map (fun _ : string => VDict {[ KStr "a" := VInt 1 ]}) ["f.yaml"%string])
           [VDict ∅]).
Proof.
  apply (generate_base_and_overlays_result
           (fun _ _ => Build_DiffReport None None None None None None)
           (fun _ => VDict {[ KStr "a" := VInt 1 ]}) ["f.yaml"%string]).
  vm_compute. reflexivity.
Defined.

(** X15. [main] saves nothing when a file does not load: no call of
    [save_yaml] is made, for the base or for any overlay. *)
Theorem main_saves_nothing_on_load_failure :
  forall (DeepDiff : value -> value -> DiffReport)
         (read_yaml : string -> value) (args : Namespace),
    (exists file, In file (input_files args) /\ read_yaml file = VNone) ->
    main DeepDiff read_yaml args = Ok [].
Proof.
  intros DeepDiff read_yaml args (file & Hin & Hfail).
  unfold main, generate_base_and_overlays.
  assert (existsb (fun d => py_eq VNone d) (map read_yaml (input_files args))
          = true) as ->; [|done].
  apply existsb_None_In. rewrite <-Hfail. by apply in_map.
Qed.

Lemma main_saves_nothing_on_load_failure_witness :
  main (fun _ _ => Build_DiffReport None None None None None None)
       (fun file => if bool_decide (file = "missing.yaml"%string)
                    then VNone else VDict {[ KStr "a" := VInt 1 ]})
       {| input_files := ["a.yaml"%string; "missing.yaml"%string];
          output_prefix := "out"%string; verbose := false |}
  = Ok [].
Proof.
  apply main_saves_nothing_on_load_failure.
  exists "missing.yaml"%string. split; [cbn; auto|reflexivity].
Defined.

(** X16. When there is a base, [main] saves the base to
    [<prefix>_base.yaml] and then the k-th overlay to
    [<prefix>_overlay_<k>.yaml], k counting from 1 in the order of the
    input files, one overlay for each input file; pruning them before
    saving changes neither the base nor an overlay: they are saved as
    [generate_base_and_overlays] returned them. *)
Theorem main_saves_base_and_overlays :
  forall (DeepDiff : value -> value -> DiffReport)
         (read_yaml : string -> value) (args : Namespace)
         (base : value) (overlays : list value),
    generate_base_and_overlays DeepDiff read_yaml (input_files args)
    = Ok (base, overlays) ->
    base <> VNone ->
    main DeepDiff read_yaml args =
    Ok ((base, String.append (output_prefix args) "_base.yaml")
          :: imap (fun i overlay =>
                     (overlay,
                      String.append (output_prefix args)
                        (String.append "_overlay_"
                           (String.append (str_of_nat (i + 1)) ".yaml"))))
                  overlays) /\
    length overlays = length (input_files args).
Proof.
  intros DeepDiff read_yaml args base overlays H Hne.
  unfold main. rewrite H. cbn [mbind result_bind].
  apply generate_base_and_overlays_Ok in H as [(_ & ? & _)|(_ & Hb & Hf)];
    [done|].
  assert (remove_empty_structures base = base) as ->.
  { rewrite Hb. apply fully_pruned_fixed.
    destruct (map read_yaml (input_files args)); [done|].
    apply deep_intersection_ne_fully_pruned. }
  split.
  - assert (forall A (x y : A), match base with VNone => x | _ => y end = y)
      as -> by (intros; by destruct base).
    do 2 f_equal. apply imap_ext. intros i overlay Hi. cbn. f_equal.
    destruct (Forall2_lookup_r _ _ _ _ _ Hf Hi) as (d & _ & Hc).
    apply create_overlay_Ok in Hc as (o & _ & ->). apply prune_pruned.
  - apply Forall2_length in Hf. by rewrite length_map in Hf.
Qed.

Lemma main_saves_base_and_overlays_witness :
  main (fun _ _ => Build_DiffReport None None None None None None)
       (fun _ => VDict {[ KStr "a" := VInt 1 ]})
       {| input_files := ["f.yaml"%string; "g.yaml"%string];
          output_prefix := "out"%string; verbose := false |}
  = Ok [(VDict {[ KStr "a" := VInt 1 ]}, "out_base.yaml"%string);
        (VDict ∅, "out_overlay_1.yaml"%string);
        (VDict ∅, "out_overlay_2.yaml"%string)].
Proof.
  apply (main_saves_base_and_overlays
           (fun _ _ => Build_DiffReport None None None None None None)
           (fun _ => VDict {[ KStr "a" := VInt 1 ]})
           {| input_files := ["f.yaml"%string; "g.yaml"%string];
              output_prefix := "out"%string; verbose := false |}
           (VDict {[ KStr "a" := VInt 1 ]}) [VDict ∅; VDict ∅]).
  - vm_compute. reflexivity.
  - discriminate.
Defined.

(* ================================================================== *)
(** * Further properties of parse_path *)
(* ================================================================== *)

Section PathText.

Import PathRegex.

Lemma list_ascii_of_string_append s1 s2 :
  list_ascii_of_string (String.append s1 s2)
  = list_ascii_of_string s1 ++ list_ascii_of_string s2.
Proof.
  induction s1 as [|c s1 IH]; [done|]. cbn [list_ascii_of_string app].
  rewrite <-IH. reflexivity.
Qed.

Lemma span_app p run c after :
  forallb p run = true -> p c = false ->
  span p (run ++ c :: after) = (run, c :: after).
Proof.
  intros Hrun Hc. induction run as [|x run IH]; cbn.
  - by rewrite Hc.
  - cbn in Hrun. apply andb_true_iff in Hrun as [-> Hrun].
    by rewrite (IH Hrun).
Qed.

(** The search resumes behind the characters that were matched. *)
Lemma findall_skip cs1 cs2 :
  findall (cs1 ++ cs2) (length cs1) = findall cs2 0.
Proof. induction cs1 as [|c cs1 IH]; [done|]. cbn. apply IH. Qed.

Lemma findall_no_match c cs :
  c <> lbracket -> findall (c :: cs) 0 = findall cs 0.
Proof.
  intros Hc. cbn [findall].
  assert (match_key (c :: cs) = None) as ->.
  { unfold match_key. destruct cs as [|c2 cs]; [done|].
    by rewrite bool_decide_eq_false_2. }
  assert (match_index (c :: cs) = None) as ->; [|done].
  unfold match_index. by rewrite bool_decide_eq_false_2.
Qed.

Lemma findall_key s rest :
  forallb (fun c => negb (is_quote c)) s = true ->
  findall (lbracket :: quote :: s ++ quote :: rbracket :: rest) 0
  = (s, []) :: findall rest 0.
Proof.
  intros Hs. cbn [findall].
  assert (match_key (lbracket :: quote :: s ++ quote :: rbracket :: rest)
          = Some (s, length s + 4)) as ->.
  { unfold match_key. rewrite (span_app _ s quote) by done. done. }
  f_equal. replace (length s + 4 - 1) with (length (quote :: s ++ [quote; rbracket]))
    by (cbn; rewrite length_app; cbn; lia).
  rewrite <-(findall_skip (quote :: s ++ [quote; rbracket]) rest).
  cbn [app]. by rewrite <-app_assoc.
Qed.

Lemma findall_index digits rest :
  digits <> [] ->
  forallb is_digit digits = true ->
  findall (lbracket :: digits ++ rbracket :: rest) 0
  = ([], digits) :: findall rest 0.
Proof.
  intros Hne Hd. cbn [findall].
  assert (match_key (lbracket :: digits ++ rbracket :: rest) = None) as ->.
  { unfold match_key. destruct digits as [|c ds]; [done|]. cbn [app].
    cbn in Hd. apply andb_true_iff in Hd as [Hc _].
    assert (is_quote c = false) as ->; [|done].
    apply bool_decide_eq_false. intros ->. done. }
  assert (match_index (lbracket :: digits ++ rbracket :: rest)
          = Some (digits, length digits + 2)) as ->.
  { unfold match_index. rewrite (span_app _ digits rbracket) by done.
    by destruct digits. }
  f_equal. replace (length digits + 2 - 1) with (length (digits ++ [rbracket]))
    by (rewrite length_app; cbn; lia).
  rewrite <-(findall_skip (digits ++ [rbracket]) rest).
  by rewrite <-app_assoc.
Qed.

Lemma uint_digits d :
  forallb is_digit (list_ascii_of_string (NilEmpty.string_of_uint d)) = true.
Proof. induction d; cbn; by rewrite ?IHd. Qed.

Lemma uint_value d acc :
  foldl (fun acc c => 10 * acc + (nat_of_ascii c - 48)) acc
        (list_ascii_of_string (NilEmpty.string_of_uint d))
  = Nat.of_uint_acc d acc.
Proof.
  revert acc. induction d; intros acc; [reflexivity|..];
    cbn [NilEmpty.string_of_uint list_ascii_of_string foldl Nat.of_uint_acc];
    rewrite IHd, Nat.tail_mul_spec; f_equal; vm_compute (nat_of_ascii _ - 48);
    lia.
Qed.

Lemma str_of_nat_digits n :
  list_ascii_of_string (str_of_nat n) <> [] /\
  forallb is_digit (list_ascii_of_string (str_of_nat n)) = true /\
  PathRegex.int (list_ascii_of_string (str_of_nat n)) = n.
Proof.
  unfold str_of_nat, NilZero.string_of_uint.
  pose proof (DecimalNat.Unsigned.of_to n) as Hn. unfold Nat.of_uint in Hn.
  destruct (Nat.to_uint n) as [|d|d|d|d|d|d|d|d|d|d] eqn:E;
    (split; [done|]); (split; [try done; apply uint_digits|]);
    unfold PathRegex.int; try (by rewrite uint_value);
    by rewrite <-Hn.
Qed.

Lemma findall_steps p :
  forallb quotable p = true ->
  findall (list_ascii_of_string
             (foldr (fun k acc => String.append (step_string k) acc)
                    EmptyString p)) 0
  = map component p.
Proof.
  induction p as [|k p IH]; [done|]. cbn [forallb foldr map].
  intros [Hk Hp]%andb_true_iff. rewrite list_ascii_of_string_append.
  destruct k as [s|n]; cbn [step_string component].
  - rewrite !list_ascii_of_string_append. cbn [list_ascii_of_string app].
    rewrite <-app_assoc. cbn [app].
    rewrite (findall_key (list_ascii_of_string s)) by done.
    by rewrite IH.
  - destruct (str_of_nat_digits n) as (Hne & Hd & _).
    rewrite !list_ascii_of_string_append. cbn [list_ascii_of_string app].
    rewrite <-app_assoc. cbn [app].
    rewrite findall_index by done. by rewrite IH.
Qed.

End PathText.

(** X17. [parse_path] reads back the notation of the diff library: for
    every path whose string keys contain no quote, parsing the text
    [root] followed by [['key']] for a string key and [[n]] for an index
    gives the path again, a quoted key as a string, also when it is made
    of digits, and an index as an integer. *)
Theorem parse_path_of_path_string :
  forall p : list key,
    forallb quotable p = true ->
    parse_path (path_string p) = p.
Proof.
  intros p Hp. unfold parse_path, path_string.
  rewrite list_ascii_of_string_append.
  change (list_ascii_of_string "root") with ["r"; "o"; "o"; "t"]%char.
  cbn [app]. rewrite !findall_no_match by done.
  rewrite findall_steps by done. rewrite map_map.
  clear Hp. induction p as [|k p IH]; [done|]. cbn [map]. rewrite IH.
  f_equal. destruct k as [s|n]; cbn [component].
  - by rewrite string_of_list_ascii_of_string.
  - destruct (str_of_nat_digits n) as (Hne & _ & Hv).
    destruct (list_ascii_of_string (str_of_nat n)); [done|].
    by rewrite Hv.
Qed.

Lemma parse_path_of_path_string_witness :
  parse_path (path_string [KStr "a b"; KInt 10; KStr "7"; KStr ""])
  = [KStr "a b"; KInt 10; KStr "7"; KStr ""].
Proof.
  apply parse_path_of_path_string. vm_compute. reflexivity.
Defined.

(* ================================================================== *)
(** * Keys of the base and containers created on the way *)
(* ================================================================== *)

(** X18. The keys of the base of mappings: for a non-empty list of
    documents that are all mappings, the base has a key exactly when
    every document has it and the deep intersection of the values at that
    key, once pruned, is none of [{}], [[]] and [None]; the base then
    holds that pruned intersection. *)
Theorem deep_intersection_key :
  forall (docs : list value) (k : key),
    docs <> [] ->
    forallb is_dict docs = true ->
    dict_get k (deep_intersection docs) =
    if forallb (has_key k) docs
    then pruned_child (deep_intersection (omap (dict_get k) docs))
    else None.
Proof.
  intros [|d0 rest] k Hne Hd; [done|].
  cbn [forallb] in Hd. apply andb_true_iff in Hd as [Hd0 Hrest].
  destruct d0 as [| | | | |m0]; try done.
  rewrite deep_intersection_dicts by done.
  rewrite remove_empty_structures_dict. cbn [dict_get].
  rewrite lookup_omap, map_lookup_imap.
  destruct (m0 !! k) as [v|] eqn:Hv; cbn.
  - rewrite Hv. rewrite bool_decide_eq_true_2 by eauto. cbn.
    by destruct (forallb (has_key k) rest).
  - rewrite Hv. by rewrite bool_decide_eq_false_2 by (by intros [? ?]).
Qed.

Lemma deep_intersection_key_witness :
  dict_get (KStr "b")
    (deep_intersection
       [VDict {[ KStr "a" := VInt 1; KStr "b" := VInt 2 ]};
        VDict {[ KStr "a" := VInt 1; KStr "c" := VInt 3 ]}]) =
  if forallb (has_key (KStr "b"))
       [VDict {[ KStr "a" := VInt 1; KStr "b" := VInt 2 ]};
        VDict {[ KStr "a" := VInt 1; KStr "c" := VInt 3 ]}]
  then pruned_child
         (deep_intersection
            (omap (dict_get (KStr "b"))
               [VDict {[ KStr "a" := VInt 1; KStr "b" := VInt 2 ]};
                VDict {[ KStr "a" := VInt 1; KStr "c" := VInt 3 ]}]))
  else None.
Proof.
  apply deep_intersection_key; [discriminate|reflexivity].
Defined.

Section CreatedContainers.

#[local] Arguments set_nested : simpl never.
#[local] Arguments get_nested : simpl never.

Lemma set_nested_keeps_kind d p v d' :
  set_nested d p v = Ok d' ->
  is_dict d' = is_dict d /\ is_list d' = is_list d.
Proof.
  destruct p as [|k p]; [done|]. intros [G _]%set_nested_root.
  destruct d as [| | | |l|m]; cbn in G; try (by subst).
  - by destruct G as (l' & -> & _).
  - by destruct G as (m' & -> & _).
Qed.

(** X19. A missing intermediate container is created after the kind of
    the step that follows: when a mapping has no entry for a string key
    that is not the last step, a completed [set_nested] leaves at that
    key a mapping if the next step is a string and a sequence if it is an
    index. *)
Theorem set_nested_creates_by_next_step :
  forall (m : gmap key value) (s : string) (next : key) (p : list key)
         (v d' : value),
    m !! KStr s = None ->
    set_nested (VDict m) (KStr s :: next :: p) v = Ok d' ->
    exists c, dict_get (KStr s) d' = Some c /\
              match next with
              | KStr _ => is_dict c = true
              | KInt _ => is_list c = true
              end.
Proof.
  intros m s next p v d' Hm. rewrite set_nested_step. cbn [setdefault].
  rewrite Hm. cbn [mbind result_bind].
  destruct (set_nested (new_container next) (next :: p) v) as [c|] eqn:Hc;
    [|done].
  intros [= <-]. exists c. cbn. rewrite lookup_insert_eq. split; [done|].
  apply set_nested_keeps_kind in Hc as [Hd Hl]. by destruct next.
Qed.

Lemma set_nested_creates_by_next_step_witness :
  exists c,
    dict_get (KStr "l")
      (VDict {[ KStr "l" := VList [VNone; VNone; VInt 9] ]}) = Some c /\
    is_list c = true.
Proof.
  apply (set_nested_creates_by_next_step ∅ "l" (KInt 2) [] (VInt 9)).
  - reflexivity.
  - vm_compute. reflexivity.
Defined.

(** X20. Writing beyond the end of a sequence fills the gap with [None]:
    for a sequence of length at most [n], assigning at index [n] leaves
    the elements it had, then [None] up to index [n], then the value;
    inside the sequence the element at [n] is replaced and the length is
    kept. *)
Theorem set_nested_index_on_sequence :
  forall (l : list value) (n : nat) (v : value),
    set_nested (VList l) [KInt n] v =
    Ok (VList (if decide (n < length l)
               then <[n := v]> l
               else l ++ replicate (n - length l) VNone ++ [v])).
Proof.
  intros l n v. rewrite set_nested_last. cbn [append_until mbind result_bind].
  rewrite setitem_list by (rewrite length_app, length_replicate; lia).
  do 2 f_equal. destruct (decide (n < length l)) as [Hn|Hn].
  - replace (S n - length l) with 0 by lia. by rewrite app_nil_r.
  - replace (S n - length l) with (S (n - length l)) by lia.
    rewrite replicate_S_end, app_assoc.
    rewrite (insert_app_r_alt _ _ n)
      by (rewrite length_app, length_replicate; lia).
    rewrite length_app, length_replicate.
    replace (n - (length l + (n - length l))) with 0 by lia.
    rewrite <-app_assoc. reflexivity.
Qed.

End CreatedContainers.
